(** * Hub-and-spoke orchestrator of LC.py

    A shallow embedding of the star graph of [src/LC.py]: the shared
    [AgentState], the [hub] node, the spoke factory [make_spoke], the routing
    function [route_from_hub], the graph wiring and the executor loop that
    drives it, followed by the properties the specification states about
    them.

    What lies outside the repository is kept abstract or minimal:
    - the language model behind [llm.invoke] is an oracle [llm], a function
      of the number of calls made before and of the request, that answers
      with a message or fails;
    - the graph library is reduced to what the script uses of it: nodes that
      return partial updates, the reducers of the state schema, one
      conditional edge out of the hub, one plain edge from every spoke back
      to the hub, and a bound on the number of node executions. *)

From stdpp Require Import base option list strings pretty.

Local Open Scope string_scope.
Local Open Scope list_scope.
Local Open Scope nat_scope.

(** ** Messages and the shared state *)

(** The three kinds of transcript entry the script handles: the
    [{"role": "system", ...}] dictionaries that lead a request, the
    [HumanMessage] that seeds a run, and the replies of the model. *)
Inductive Role := system | human | ai.

Record Message := mkMessage { role : Role; content : string }.

#[global] Instance Role_eq_dec : EqDecision Role.
Proof. solve_decision. Defined.

#[global] Instance Message_eq_dec : EqDecision Message.
Proof. solve_decision. Defined.

(** [class AgentState(TypedDict)]. A Python dictionary may lack any of its
    keys, and the partial updates the nodes return are dictionaries over the
    same keys, so every field is optional. *)
Record AgentState := mkState {
  messages : option (list Message);
  next : option string;
  visited : option (list string)
}.

(** [END], the name the graph library gives to the terminal point. *)
Definition END : string := "__end__".

(** [SPECIALISTS]: an insertion-ordered dictionary from spoke name to system
    prompt; the hub iterates over it, so the order is kept. *)
Definition SPECIALISTS : list (string * string) :=
  [ ("researcher",
     "You are a knowledgeable researcher. " +:+
     "Provide relevant facts, data, and background on the topic.");
    ("analyst",
     "You are a data analyst. " +:+
     "Examine the information gathered so far and identify key patterns, " +:+
     "trends, and deeper implications.");
    ("critic",
     "You are a critical thinker. " +:+
     "Identify weaknesses, counterarguments, risks, or missing perspectives " +:+
     "in the discussion so far.");
    ("writer",
     "You are a skilled writer. " +:+
     "Synthesize all previous contributions into a clear, concise, " +:+
     "well-structured response.") ].

(** The system entry the hub puts in front of the transcript when it
    synthesizes. *)
Definition orchestrator_prompt : Message :=
  mkMessage system
    ("You are an orchestrator. All specialist agents have shared " +:+
     "their perspectives. Synthesize everything into one final, " +:+
     "well-structured answer.").

(** ** Effects: console lines, model calls, exceptions *)

(** What a node does besides returning: the three [print] statements and the
    call [llm.invoke(request)]. A console line is kept as the kind of line
    and the spoke name it mentions, not as its text (the script prints the
    name in upper case). *)
Inductive Event :=
  | Routing (name : string)          (* print "[HUB] routing -> NAME" *)
  | Synthesizing                     (* print "[HUB] all specialists done ..." *)
  | Working (name : string)          (* print "[NAME] working..." *)
  | Invoke (request : list Message). (* llm.invoke(request) *)

(** The world is the sequence of events so far, oldest first. *)
Definition World := list Event.

Definition request_of (e : Event) : option (list Message) :=
  match e with Invoke request => Some request | _ => None end.

(** The requests sent to the model so far, and their number. *)
Definition requests (w : World) : list (list Message) := omap request_of w.
Definition calls (w : World) : nat := length (requests w).

(** The exceptions that can leave a node: a subscript [d[key]] on a missing
    key, and whatever [llm.invoke] raises when the model call fails. The
    script gives the latter no name of its own; [GenerationFailure] is the
    name the specification uses. *)
Inductive Error :=
  | KeyError (key : string)
  | GenerationFailure.

Inductive Outcome (A : Type) :=
  | Ok (a : A) (w : World)
  | Raise (e : Error) (w : World).
Arguments Ok {A} a w.
Arguments Raise {A} e w.

Definition M (A : Type) : Type := World → Outcome A.

#[global] Instance M_ret : MRet M := λ A a w, Ok a w.

#[global] Instance M_bind : MBind M := λ A B k m w,
  match m w with
  | Ok a w' => k a w'
  | Raise e w' => Raise e w'
  end.

Definition raise {A} (e : Error) : M A := λ w, Raise e w.

Definition emit (e : Event) : M unit := λ w, Ok () (w ++ [e]).

(** [d[key]]: the value, or [KeyError]. *)
Definition getitem {A} (key : string) (field : option A) : M A :=
  match field with
  | Some v => mret v
  | None => raise (KeyError key)
  end.

(** ** The graph and the record of a run *)

(** The nodes of the star: the hub, one spoke per specialist (the closure
    [make_spoke(name, prompt)]), and the terminal point. *)
Inductive Node :=
  | HubNode
  | SpokeNode (name system_prompt : string)
  | EndNode.

(** Who appended an entry of the transcript: the caller's input, the hub, or
    the spoke of that name. Kept beside the state by the executor; the
    script itself does not store it. *)
Inductive Author :=
  | ByInput
  | ByHub
  | BySpoke (name : string).

#[global] Instance Author_eq_dec : EqDecision Author.
Proof. solve_decision. Defined.

(** A configuration of the executor: the node about to run, the shared
    state, and the author of every message of the transcript. *)
Record Config := mkConfig {
  node : Node;
  state : AgentState;
  authors : list Author
}.

Inductive Result :=
  | Finished (c : Config) (w : World)             (* END reached *)
  | Aborted (e : Error) (c : Config) (w : World)  (* the node at [c] raised *)
  | RecursionLimit (c : Config) (w : World).      (* step bound exhausted *)

(** The reducer of the [messages] channel. The schema comment reads "each
    node appends its message"; the merging of entries that carry the same
    identifier, which the library also does, is not modelled. *)
Definition add_messages (left right : list Message) : list Message :=
  left ++ right.

(** Merging a node's partial update into the state: [messages] goes through
    its reducer, [next] and [visited] are overwritten when present. *)
Definition apply_update (state update : AgentState) : AgentState :=
  {| messages :=
       match messages update with
       | Some new => Some (add_messages (default [] (messages state)) new)
       | None => messages state
       end;
     next := if next update is Some v then Some v else next state;
     visited := if visited update is Some v then Some v else visited state |}.

(** [SPECIALISTS[name]] on an insertion-ordered dictionary. *)
Fixpoint prompt_of (name : string) (specialists : list (string * string))
    : option string :=
  match specialists with
  | [] => None
  | (name', prompt) :: rest =>
      if decide (name' = name) then Some prompt else prompt_of name rest
  end.

Section Orchestrator.

(** The model: [llm i request] is its answer to [request] when [i] calls
    were made before, [None] when that call fails. *)
Variable llm : nat → list Message → option Message.

(** The roster the script is configured with ([SPECIALISTS] in the
    source, a module-level constant there). *)
Variable roster : list (string * string).

Definition llm_invoke (request : list Message) : M Message :=
  λ w, match llm (calls w) request with
       | Some response => Ok response (w ++ [Invoke request])
       | None => Raise GenerationFailure (w ++ [Invoke request])
       end.

(** ** The hub *)

(** The loop [for name in SPECIALISTS: if name not in visited: return]:
    the first name of the roster that is not in [visited], if any. *)
Fixpoint first_pending (names visited : list string) : option string :=
  match names with
  | [] => None
  | name :: rest =>
      if decide (name ∈ visited) then first_pending rest visited
      else Some name
  end.

Definition hub (state : AgentState) : M AgentState :=
  let visited := default [] (visited state) in
  match first_pending roster.*1 visited with
  | Some name =>
      emit (Routing name) ;;
      mret {| messages := None; next := Some name; visited := None |}
  | None =>
      emit Synthesizing ;;
      history ← getitem "messages" (messages state);
      response ← llm_invoke (orchestrator_prompt :: history);
      mret {| messages := Some [response]; next := Some END;
             visited := None |}
  end.

(** ** The spokes *)

Definition make_spoke (name system_prompt : string)
    (state : AgentState) : M AgentState :=
  emit (Working name) ;;
  history ← getitem "messages" (messages state);
  response ← llm_invoke (mkMessage system system_prompt :: history);
  mret {| messages := Some [response]; next := None;
         visited := Some (default [] (visited state) ++ [name]) |}.

(** ** Routing *)

Definition route_from_hub (state : AgentState) : M string :=
  getitem "next" (next state).

(** ** The star graph and its executor *)

(** The mapping of the conditional edge out of the hub,
    [{**{name: name for name in SPECIALISTS}, END: END}]: the entry for
    [END] is written last and wins. *)
Definition path_map (key : string) : M Node :=
  if decide (key = END) then mret EndNode
  else match prompt_of key roster with
       | Some prompt => mret (SpokeNode key prompt)
       | None => raise (KeyError key)
       end.

(** One node execution: run the node on the state, merge its update, and
    follow the edge that leaves it. [graph.add_edge(name, "hub")] sends
    every spoke back to the hub; the hub's edge is conditional on
    [route_from_hub]. *)
Definition step (c : Config) : M Config :=
  match node c with
  | HubNode =>
      update ← hub (state c);
      let state' := apply_update (state c) update in
      key ← route_from_hub state';
      target ← path_map key;
      mret (mkConfig target state'
              (authors c ++
               replicate (length (default [] (messages update))) ByHub))
  | SpokeNode name system_prompt =>
      update ← make_spoke name system_prompt (state c);
      mret (mkConfig HubNode (apply_update (state c) update)
              (authors c ++
               replicate (length (default [] (messages update)))
                 (BySpoke name)))
  | EndNode => mret c
  end.

(** The executor loop, bounded by the library's [recursion_limit]. The
    bound is tested before anything else, also before the arrival at the
    terminal point is noticed: a run of [k] node executions performs them
    all at bound [k] and then stops on the bound; it ends from bound
    [k + 1] on. *)
Fixpoint run (fuel : nat) (c : Config) (w : World) : Result :=
  match fuel with
  | 0 => RecursionLimit c w
  | S fuel' =>
      match node c with
      | EndNode => Finished c w
      | _ =>
          match step c w with
          | Ok c' w' => run fuel' c' w'
          | Raise e w' => Aborted e c w'
          end
      end
  end.

(** [app.invoke(input)]: [graph.add_edge(START, "hub")] makes the hub the
    first node to run, on the caller's input. *)
Definition invoke (recursion_limit : nat) (input : AgentState) : Result :=
  run recursion_limit
    (mkConfig HubNode input
       (replicate (length (default [] (messages input))) ByInput))
    [].

End Orchestrator.

(** The input of [__main__]: the task as the only message, nothing visited,
    no route. *)
Definition initial_state (task : string) : AgentState :=
  {| messages := Some [mkMessage human task];
     next := Some "";
     visited := Some [] |}.

(** The step bound the library applies when the caller gives none. *)
Definition default_recursion_limit : nat := 25.

(** [app.invoke] of the script: the configured roster, the default bound. *)
Definition app_invoke (llm : nat → list Message → option Message)
    (input : AgentState) : Result :=
  invoke llm SPECIALISTS default_recursion_limit input.

(** [result["messages"][-1].content], what [__main__] prints. *)
Definition final_synthesis (r : Result) : option string :=
  match r with
  | Finished c _ => content <$> (messages (state c) ≫= last)
  | _ => None
  end.

(** A model that always answers, naming the call it answers. *)
Definition echo_llm (i : nat) (request : list Message) : option Message :=
  Some (mkMessage ai ("reply " +:+ pretty i)).

(** A model that answers [k] calls and fails from then on. *)
Definition failing_llm (k i : nat) (request : list Message)
    : option Message :=
  if decide (i < k) then echo_llm i request else None.

(** ** Vocabulary of the statements *)

(** The update by which the hub routes to a spoke. *)
Definition route_to (name : string) : AgentState :=
  {| messages := None; next := Some name; visited := None |}.

(** The world an outcome leaves behind. *)
Definition world_of {A} (o : Outcome A) : World :=
  match o with Ok _ w => w | Raise _ w => w end.

(** A roster the graph can be built from: a dictionary has no two equal
    keys, and no spoke bears the name of the terminal point. *)
Definition roster_ok (roster : list (string * string)) : Prop :=
  NoDup roster.*1 ∧ END ∉ roster.*1.

#[global] Instance roster_ok_dec roster : Decision (roster_ok roster).
Proof. unfold roster_ok. apply _. Defined.

(** The hub about to run on a state whose three keys are present. *)
Definition at_hub (history : list Message) (route : option string)
    (seen : list string) (by_whom : list Author) : Config :=
  mkConfig HubNode
    {| messages := Some history; next := route; visited := Some seen |}
    by_whom.

(** An event without the content of its request. *)
Definition shape (e : Event) : Event :=
  match e with Invoke _ => Invoke [] | _ => e end.

(** The events of one hub-to-spoke round, and of one round per name. *)
Definition round (name : string) : list Event :=
  [Routing name; Working name; Invoke []].
Definition rounds (names : list string) : list Event := names ≫= round.

(** The spoke a console line announces at work. *)
Definition worker_of (e : Event) : option string :=
  match e with Working name => Some name | _ => None end.

(** How a run ends that started at the hub with the spokes of [done]
    visited and those of [todo] pending: every pending spoke answered in
    turn, then the hub synthesized. *)
Definition finished_after (llm : nat → list Message → option Message)
    (done todo : list (string * string))
    (history : list Message) (au : list Author) (w : World)
    (c' : Config) (w' : World) : Prop :=
  ∃ replies synthesis,
    length replies = length todo ∧
    c' = mkConfig EndNode
           {| messages := Some (history ++ replies ++ [synthesis]);
              next := Some END;
              visited := Some (done ++ todo).*1 |}
           (au ++ (BySpoke <$> todo.*1) ++ [ByHub]) ∧
    shape <$> w' =
      (shape <$> w) ++ rounds todo.*1 ++ [Synthesizing; Invoke []] ∧
    (∀ i, i ≤ length todo →
       ∃ request, is_Some (llm (calls w + i) request)) ∧
    llm (calls w + length todo) (orchestrator_prompt :: history ++ replies)
      = Some synthesis.

(** How such a run aborts: [j] pending spokes answered, then the call
    number [j] of the pass failed, in the next spoke or, when none is
    left, in the synthesis of the hub. *)
Definition aborted_after (llm : nat → list Message → option Message)
    (done todo : list (string * string))
    (history : list Message) (au : list Author) (w : World)
    (e : Error) (c' : Config) (w' : World) : Prop :=
  e = GenerationFailure ∧
  ∃ j replies,
    j ≤ length todo ∧ length replies = j ∧
    messages (state c') = Some (history ++ replies) ∧
    visited (state c') = Some (done ++ take j todo).*1 ∧
    authors c' = au ++ (BySpoke <$> (take j todo).*1) ∧
    node c' = (if todo !! j is Some (n, p) then SpokeNode n p
               else HubNode) ∧
    shape <$> w' =
      (shape <$> w) ++ rounds (take j todo).*1 ++
      (if todo !! j is Some (n, _) then round n
       else [Synthesizing; Invoke []]) ∧
    (∀ i, i < j →
       ∃ request, is_Some (llm (calls w + i) request)) ∧
    (∃ request, llm (calls w + j) request = None).

(** The number of messages of the transcript the spoke [name] appended. *)
Definition contributions (name : string) (by_whom : list Author) : nat :=
  length (filter (λ a, a = BySpoke name) by_whom).

(** The configurations a run on the seeded state goes through. *)
Inductive reachable (llm : nat → list Message → option Message)
    (roster : list (string * string)) (task : string)
    : Config → World → Prop :=
  | reachable_start :
      reachable llm roster task
        (mkConfig HubNode (initial_state task) [ByInput]) []
  | reachable_step c w c' w' :
      reachable llm roster task c w →
      node c ≠ EndNode →
      step llm roster c w = Ok c' w' →
      reachable llm roster task c' w'.

(** What the specification asks of every state: [visited] lies within the
    roster, holds exactly the names that appended one message, and no name
    appended more than one; every message has an author. *)
Definition tracks (roster : list (string * string)) (c : Config) : Prop :=
  ∃ seen,
    visited (state c) = Some seen ∧
    seen ⊆ roster.*1 ∧
    (∀ name, name ∈ seen ↔ contributions name (authors c) = 1) ∧
    (∀ name, contributions name (authors c) ≤ 1) ∧
    length (authors c) = length (default [] (messages (state c))).

(** The same, strengthened so that single steps preserve it: the names are
    counted exactly, and a spoke about to run is one of the roster that has
    not been visited. *)
Definition visited_invariant (roster : list (string * string))
    (c : Config) : Prop :=
  ∃ seen history,
    visited (state c) = Some seen ∧
    messages (state c) = Some history ∧
    length (authors c) = length history ∧
    seen ⊆ roster.*1 ∧
    NoDup seen ∧
    (∀ name, contributions name (authors c)
             = if decide (name ∈ seen) then 1 else 0) ∧
    (∀ n p, node c = SpokeNode n p → n ∈ roster.*1 ∧ n ∉ seen).

(** The state of a run on the task, with the given names visited. *)
Definition seen_state (seen : list string) : AgentState :=
  {| messages := Some [mkMessage human "Explain X."];
     next := Some "";
     visited := Some seen |}.

(** The number of roster names that are not in [seen]: what is left for
    the hub to route to. *)
Definition pending (roster : list (string * string)) (seen : list string)
    : nat :=
  length (filter (λ n, n ∉ seen) roster.*1).

(** The configurations a run on any input goes through. *)
Inductive reachable_from (llm : nat → list Message → option Message)
    (roster : list (string * string)) (input : AgentState)
    : Config → World → Prop :=
  | reachable_from_start :
      reachable_from llm roster input
        (mkConfig HubNode input
           (replicate (length (default [] (messages input))) ByInput)) []
  | reachable_from_step c w c' w' :
      reachable_from llm roster input c w →
      node c ≠ EndNode →
      step llm roster c w = Ok c' w' →
      reachable_from llm roster input c' w'.

(** The requests of the spokes of [todo], run in turn from the transcript
    [history], when their replies are [replies]: each spoke sends its own
    system prompt followed by the transcript as the replies before it have
    extended it. *)
Fixpoint spoke_requests (todo : list (string * string))
    (history replies : list Message) : list (list Message) :=
  match todo, replies with
  | (_, prompt) :: todo', reply :: replies' =>
      (mkMessage system prompt :: history)
      :: spoke_requests todo' (history ++ [reply]) replies'
  | _, _ => []
  end.

(** What holds along a run from [input]: [visited] is the input's list
    followed by the spokes that ran, in the order they ran; each is a name
    of the roster the input had not visited, none ran twice, and a spoke
    about to run is a name of the roster not yet visited. *)
Definition ran_once (roster : list (string * string)) (input : AgentState)
    (c : Config) (w : World) : Prop :=
  ∃ added,
    default [] (visited (state c)) = default [] (visited input) ++ added ∧
    omap worker_of w = added ∧
    NoDup added ∧
    (∀ n, n ∈ added → n ∈ roster.*1 ∧ n ∉ default [] (visited input)) ∧
    (∀ n p, node c = SpokeNode n p →
            n ∈ roster.*1 ∧ n ∉ default [] (visited (state c))).

(** * Properties *)

(** ** Unfolding the effects *)

Ltac unfold_M :=
  unfold mbind, M_bind, mret, M_ret, emit, getitem, raise, llm_invoke.

Lemma calls_app (w1 w2 : World) : calls (w1 ++ w2) = calls w1 + calls w2.
Proof. unfold calls, requests. by rewrite omap_app, length_app. Qed.

Lemma calls_print (w : World) (e : Event) :
  request_of e = None → calls (w ++ [e]) = calls w.
Proof. intros He. rewrite calls_app. unfold calls, requests. simpl. rewrite He. simpl. lia. Qed.

Lemma calls_invoke (w : World) (request : list Message) :
  calls (w ++ [Invoke request]) = S (calls w).
Proof. rewrite calls_app. unfold calls, requests. simpl. lia. Qed.

(** ** The scan of the roster *)

Lemma first_pending_Some (names seen : list string) (name : string) :
  first_pending names seen = Some name ↔
  ∃ pre post, names = pre ++ name :: post ∧
              Forall (λ n, n ∈ seen) pre ∧ name ∉ seen.
Proof.
  induction names as [|n names IH]; simpl.
  - split; [done|]. intros (pre & post & Heq & _). by destruct pre.
  - destruct (decide (n ∈ seen)) as [Hin|Hnin].
    + rewrite IH. split.
      * intros (pre & post & -> & Hpre & Hname).
        exists (n :: pre), post. split_and!; [done|by constructor|done].
      * intros (pre & post & Heq & Hpre & Hname).
        destruct pre as [|n' pre]; simplify_eq/=; [done|].
        exists pre, post. by inversion Hpre.
    + split.
      * intros [= ->]. by exists [], names.
      * intros (pre & post & Heq & Hpre & Hname).
        destruct pre as [|n' pre]; simplify_eq/=; [done|].
        by inversion Hpre.
Qed.

Lemma first_pending_None (names seen : list string) :
  first_pending names seen = None ↔ Forall (λ n, n ∈ seen) names.
Proof.
  induction names as [|n names IH]; simpl.
  - split; [constructor|done].
  - destruct (decide (n ∈ seen)) as [Hin|Hnin].
    + rewrite IH. split; [by constructor|by inversion 1].
    + split; [done|]. by inversion 1.
Qed.

Section Properties.

Variable llm : nat → list Message → option Message.
Variable roster : list (string * string).


Lemma hub_pending (state : AgentState) (w : World) (name : string) :
  first_pending roster.*1 (default [] (visited state)) = Some name →
  hub llm roster state w = Ok (route_to name) (w ++ [Routing name]).
Proof. intros H. unfold hub. by rewrite H. Qed.

Lemma hub_done (state : AgentState) (w : World) (history : list Message) :
  first_pending roster.*1 (default [] (visited state)) = None →
  messages state = Some history →
  hub llm roster state w =
    match llm (calls w) (orchestrator_prompt :: history) with
    | Some response =>
        Ok {| messages := Some [response]; next := Some END;
              visited := None |}
           (w ++ [Synthesizing; Invoke (orchestrator_prompt :: history)])
    | None =>
        Raise GenerationFailure
          (w ++ [Synthesizing; Invoke (orchestrator_prompt :: history)])
    end.
Proof.
  intros H Hm. unfold hub. rewrite H, Hm. unfold_M. simpl.
  rewrite calls_print by done. rewrite <- !app_assoc. simpl.
  by destruct (llm _ _).
Qed.

(** C1. The hub scans the roster in its configured order and routes to the
    first name that is not in [visited]: when the roster splits into
    names all visited, then [name], not visited, the hub returns the
    update [{"next": name}] and calls no model. When every name of the
    roster is visited it finalizes: it sends the synthesis request and,
    when the model answers, returns that answer with [next] set to
    [END]. *)
Theorem hub_scans_roster_in_order (state : AgentState) (w : World) :
  let seen := default [] (visited state) in
  (∀ pre name post,
      roster.*1 = pre ++ name :: post →
      Forall (λ n, n ∈ seen) pre → name ∉ seen →
      hub llm roster state w = Ok (route_to name) (w ++ [Routing name])) ∧
  (Forall (λ n, n ∈ seen) roster.*1 →
   ∀ history, messages state = Some history →
     hub llm roster state w =
       match llm (calls w) (orchestrator_prompt :: history) with
       | Some response =>
           Ok {| messages := Some [response]; next := Some END;
                 visited := None |}
              (w ++ [Synthesizing; Invoke (orchestrator_prompt :: history)])
       | None =>
           Raise GenerationFailure
             (w ++ [Synthesizing; Invoke (orchestrator_prompt :: history)])
       end).
Proof.
  intros seen. split.
  - intros pre name post Hsplit Hpre Hname.
    apply hub_pending, first_pending_Some. by exists pre, post.
  - intros Hall history Hm.
    apply hub_done; [|done]. by apply first_pending_None.
Qed.

(** ** One spoke invocation *)

Lemma spoke_run (name system_prompt : string) (state : AgentState)
    (w : World) (history : list Message) :
  messages state = Some history →
  let request := mkMessage system system_prompt :: history in
  make_spoke llm name system_prompt state w =
    match llm (calls w) request with
    | Some response =>
        Ok {| messages := Some [response]; next := None;
              visited := Some (default [] (visited state) ++ [name]) |}
           (w ++ [Working name; Invoke request])
    | None =>
        Raise GenerationFailure (w ++ [Working name; Invoke request])
    end.
Proof.
  intros Hm request. unfold make_spoke. rewrite Hm. unfold_M. simpl.
  rewrite calls_print by done. rewrite <- !app_assoc. simpl.
  by destruct (llm _ _).
Qed.

(** C7. One invocation of the spoke [name] sends the model exactly one
    request, the system instruction followed by the current transcript;
    when the model answers, the update it returns, merged into the state,
    appends that single answer to the transcript and [name] to [visited],
    and leaves the route as it was. *)
Theorem spoke_contributes_once (name system_prompt : string)
    (state : AgentState) (w : World) (history : list Message)
    (response : Message) :
  messages state = Some history →
  llm (calls w) (mkMessage system system_prompt :: history)
    = Some response →
  ∃ update w',
    make_spoke llm name system_prompt state w = Ok update w' ∧
    w' = w ++ [Working name;
               Invoke (mkMessage system system_prompt :: history)] ∧
    requests w' =
      requests w ++ [mkMessage system system_prompt :: history] ∧
    messages (apply_update state update) = Some (history ++ [response]) ∧
    visited (apply_update state update)
      = Some (default [] (visited state) ++ [name]) ∧
    next (apply_update state update) = next state.
Proof.
  intros Hm Hllm. eexists _, _. split_and!.
  - rewrite (spoke_run _ _ _ _ history Hm). simpl. by rewrite Hllm.
  - done.
  - unfold requests. by rewrite omap_app.
  - unfold apply_update. simpl. by rewrite Hm.
  - done.
  - done.
Qed.

(** ** The hub as a decision *)


(** C8. The decision of the hub depends on the state alone. Two calls on
    the same state that both return, whatever happened outside the state
    in between, return the same route; and the decision the hub announces
    first, routing to a name or synthesizing, is the same for every call
    on that state, also when the synthesis request then fails. *)
Theorem hub_decision_idempotent (state : AgentState) :
  (∀ w1 w2 update1 update2 w1' w2',
      hub llm roster state w1 = Ok update1 w1' →
      hub llm roster state w2 = Ok update2 w2' →
      next update1 = next update2) ∧
  (∃ decision, ∀ w, ∃ rest,
      world_of (hub llm roster state w) = w ++ decision :: rest).
Proof.
  destruct (first_pending roster.*1 (default [] (visited state)))
    as [name|] eqn:Hscan.
  - split.
    + intros w1 w2 u1 u2 w1' w2'.
      rewrite !(hub_pending _ _ name Hscan). by intros [= <- _] [= <- _].
    + exists (Routing name). intros w. exists [].
      by rewrite (hub_pending _ _ name Hscan).
  - destruct (messages state) as [history|] eqn:Hm.
    + split.
      * intros w1 w2 u1 u2 w1' w2'.
        rewrite !(hub_done _ _ history Hscan Hm).
        do 2 destruct (llm _ _); try done.
        by intros [= <- _] [= <- _].
      * exists Synthesizing. intros w.
        rewrite (hub_done _ _ history Hscan Hm).
        by destruct (llm _ _); eexists.
    + split.
      * intros w1 w2 u1 u2 w1' w2'. unfold hub.
        rewrite Hscan, Hm. by unfold_M.
      * exists Synthesizing. intros w. exists []. unfold hub.
        rewrite Hscan, Hm. by unfold_M.
Qed.

(** C9. A hub step that returns never touches [visited]. When it selects
    a worker, its update is the route alone: transcript unchanged, no
    model call. When it finalizes, it appends exactly one message, the
    answer to the synthesis request, and sets the route to [END]. *)
Theorem hub_frame (state : AgentState) (w : World)
    (update : AgentState) (w' : World) :
  hub llm roster state w = Ok update w' →
  visited (apply_update state update) = visited state ∧
  ((∃ name,
      first_pending roster.*1 (default [] (visited state)) = Some name ∧
      update = route_to name ∧
      messages (apply_update state update) = messages state ∧
      next (apply_update state update) = Some name ∧
      requests w' = requests w) ∨
   (∃ history response,
      first_pending roster.*1 (default [] (visited state)) = None ∧
      messages state = Some history ∧
      llm (calls w) (orchestrator_prompt :: history) = Some response ∧
      messages (apply_update state update)
        = Some (history ++ [response]) ∧
      next (apply_update state update) = Some END ∧
      requests w' = requests w ++ [orchestrator_prompt :: history])).
Proof.
  destruct (first_pending roster.*1 (default [] (visited state)))
    as [name|] eqn:Hscan.
  - rewrite (hub_pending _ _ name Hscan). intros [= <- <-].
    split; [done|]. left. exists name. split_and!; try done.
    unfold requests. rewrite omap_app. simpl. by rewrite app_nil_r.
  - destruct (messages state) as [history|] eqn:Hm.
    + rewrite (hub_done _ _ history Hscan Hm).
      destruct (llm _ _) as [response|] eqn:Hllm; [|done].
      intros [= <- <-]. split; [done|]. right.
      exists history, response. split_and!; try done.
      * unfold apply_update. simpl. by rewrite Hm.
      * unfold requests. by rewrite omap_app.
    + unfold hub. rewrite Hscan, Hm. by unfold_M.
Qed.

End Properties.

(** C10. A state without the [visited] key is read as one whose [visited]
    is empty: the hub and every spoke do on it exactly what they do on the
    state with [visited = []]. In particular the hub of a roster that
    starts with [name] routes to [name], and a spoke whose model call
    answers returns the one-element list [[name]]; no [KeyError] arises
    from the missing key. *)
Theorem missing_visited_is_empty
    (llm : nat → list Message → option Message)
    (history : option (list Message)) (route : option string) (w : World) :
  let absent := {| messages := history; next := route; visited := None |} in
  let empty := {| messages := history; next := route; visited := Some [] |} in
  (∀ roster, hub llm roster absent w = hub llm roster empty w) ∧
  (∀ name system_prompt,
      make_spoke llm name system_prompt absent w
      = make_spoke llm name system_prompt empty w) ∧
  (∀ name system_prompt rest,
      hub llm ((name, system_prompt) :: rest) absent w
      = Ok (route_to name) (w ++ [Routing name])) ∧
  (∀ name system_prompt transcript response,
      history = Some transcript →
      llm (calls w) (mkMessage system system_prompt :: transcript)
        = Some response →
      make_spoke llm name system_prompt absent w
      = Ok {| messages := Some [response]; next := None;
              visited := Some [name] |}
           (w ++ [Working name;
                  Invoke (mkMessage system system_prompt :: transcript)])).
Proof.
  intros absent empty. split_and!.
  - done.
  - done.
  - intros name system_prompt rest. apply hub_pending. simpl.
    destruct (decide (name ∈ [])) as [Hin|]; [|done].
    by apply elem_of_nil in Hin.
  - intros name system_prompt transcript response -> Hllm.
    rewrite (spoke_run llm name system_prompt absent w transcript eq_refl).
    simpl. by rewrite Hllm.
Qed.

(** ** Single steps of the executor *)


Lemma prompt_of_middle (done todo : list (string * string)) (n p : string) :
  n ∉ done.*1 → prompt_of n (done ++ (n, p) :: todo) = Some p.
Proof.
  induction done as [|[n' p'] done IH]; simpl; intros Hn.
  - by rewrite decide_True.
  - apply not_elem_of_cons in Hn as [Hne Hn].
    rewrite decide_False by done. by apply IH.
Qed.

Lemma first_pending_middle (done todo : list (string * string))
    (n p : string) :
  n ∉ done.*1 →
  first_pending (done ++ (n, p) :: todo).*1 done.*1 = Some n.
Proof.
  intros Hn. apply first_pending_Some. exists done.*1, todo.*1.
  split_and!; [by rewrite fmap_app|by apply Forall_forall|done].
Qed.

Lemma first_pending_all (names : list string) :
  first_pending names names = None.
Proof. apply first_pending_None. by apply Forall_forall. Qed.

Section Steps.

Variable llm : nat → list Message → option Message.
Variable roster : list (string * string).

Lemma run_hub (fuel : nat) (st : AgentState) (au : list Author)
    (w : World) :
  run llm roster (S fuel) (mkConfig HubNode st au) w =
    match step llm roster (mkConfig HubNode st au) w with
    | Ok c' w' => run llm roster fuel c' w'
    | Raise e w' => Aborted e (mkConfig HubNode st au) w'
    end.
Proof. done. Qed.

Lemma run_spoke (fuel : nat) (n p : string) (st : AgentState)
    (au : list Author) (w : World) :
  run llm roster (S fuel) (mkConfig (SpokeNode n p) st au) w =
    match step llm roster (mkConfig (SpokeNode n p) st au) w with
    | Ok c' w' => run llm roster fuel c' w'
    | Raise e w' => Aborted e (mkConfig (SpokeNode n p) st au) w'
    end.
Proof. done. Qed.

Lemma run_end (fuel : nat) (st : AgentState) (au : list Author)
    (w : World) :
  run llm roster (S fuel) (mkConfig EndNode st au) w
  = Finished (mkConfig EndNode st au) w.
Proof. done. Qed.

(** The hub selects [n]: the state gets the route, the executor follows
    the conditional edge to the spoke [n]. *)
Lemma step_hub_routes (done todo : list (string * string)) (n p : string)
    (history : list Message) (route : option string)
    (au : list Author) (w : World) :
  roster_ok roster → roster = done ++ (n, p) :: todo →
  step llm roster (at_hub history route done.*1 au) w =
    Ok (mkConfig (SpokeNode n p)
          {| messages := Some history; next := Some n;
             visited := Some done.*1 |} au)
       (w ++ [Routing n]).
Proof.
  intros [Hdup Hend] Hsplit.
  assert (n ∉ done.*1) as Hn.
  { rewrite Hsplit, fmap_app in Hdup. simpl in Hdup.
    apply NoDup_app in Hdup as (_ & Hdisj & _).
    intros Hin. apply (Hdisj n Hin). by left. }
  assert (n ≠ END) as Hne.
  { intros ->. apply Hend. rewrite Hsplit, fmap_app.
    apply elem_of_app. right. by left. }
  unfold step, at_hub. simpl.
  unfold mbind at 1. unfold M_bind.
  rewrite (hub_pending llm roster _ _ n).
  2:{ simpl. rewrite Hsplit. by apply first_pending_middle. }
  unfold route_from_hub, path_map. unfold_M. simpl.
  rewrite decide_False by done.
  rewrite Hsplit, prompt_of_middle by done.
  by rewrite app_nil_r.
Qed.

(** Every name visited: the hub synthesizes and the executor follows the
    conditional edge to the terminal point. *)
Lemma step_hub_finalizes (history : list Message) (route : option string)
    (au : list Author) (w : World) :
  step llm roster (at_hub history route roster.*1 au) w =
    match llm (calls w) (orchestrator_prompt :: history) with
    | Some response =>
        Ok (mkConfig EndNode
              {| messages := Some (history ++ [response]);
                 next := Some END; visited := Some roster.*1 |}
              (au ++ [ByHub]))
           (w ++ [Synthesizing; Invoke (orchestrator_prompt :: history)])
    | None =>
        Raise GenerationFailure
          (w ++ [Synthesizing; Invoke (orchestrator_prompt :: history)])
    end.
Proof.
  unfold step, at_hub. simpl.
  unfold mbind at 1. unfold M_bind.
  rewrite (hub_done llm roster _ _ history);
    [|apply first_pending_all|done].
  destruct (llm _ _) as [response|]; [|done].
  unfold route_from_hub, path_map. by unfold_M.
Qed.

(** A spoke runs and the executor follows its edge back to the hub. *)
Lemma step_spoke (n p : string) (history : list Message)
    (route : option string) (seen : list string) (au : list Author)
    (w : World) :
  step llm roster
    (mkConfig (SpokeNode n p)
       {| messages := Some history; next := route; visited := Some seen |}
       au) w =
    match llm (calls w) (mkMessage system p :: history) with
    | Some response =>
        Ok (at_hub (history ++ [response]) route (seen ++ [n])
              (au ++ [BySpoke n]))
           (w ++ [Working n; Invoke (mkMessage system p :: history)])
    | None =>
        Raise GenerationFailure
          (w ++ [Working n; Invoke (mkMessage system p :: history)])
    end.
Proof.
  unfold step. simpl. unfold mbind at 1. unfold M_bind.
  rewrite (spoke_run llm n p (mkState (Some history) route (Some seen))
             w history eq_refl).
  simpl. by destruct (llm _ _).
Qed.

End Steps.

(** ** One pass over the roster *)

Section Pass.

Variable llm : nat → list Message → option Message.
Variable roster : list (string * string).
Hypothesis Hok : roster_ok roster.


Lemma pass (todo : list (string * string)) :
  ∀ done history route au w fuel,
    roster = done ++ todo →
    match run llm roster fuel (at_hub history route done.*1 au) w with
    | Finished c' w' => finished_after llm done todo history au w c' w'
    | Aborted e c' w' => aborted_after llm done todo history au w e c' w'
    | RecursionLimit _ _ =>
        fuel ≤ 2 * length todo + 1 ∧
        ∀ i, i ≤ length todo →
             2 * i + 2 ≤ fuel ∨
             (i = length todo ∧ fuel = 2 * length todo + 1) →
             ∃ request, is_Some (llm (calls w + i) request)
    end.
Proof.
  induction todo as [|[n p] todo IH];
    intros done history route au w fuel Hsplit.
  - destruct fuel as [|fuel]; [simpl; split; [lia|intros i Hi [|[]]; lia]|].
    rewrite app_nil_r in Hsplit. subst done.
    unfold at_hub. rewrite run_hub.
    fold (at_hub history route roster.*1 au).
    rewrite step_hub_finalizes.
    destruct (llm (calls w) _) as [synthesis|] eqn:Hllm.
    + destruct fuel as [|fuel].
      * simpl. split; [lia|]. intros i Hi _. assert (i = 0) as -> by lia.
        rewrite Nat.add_0_r. by eexists; rewrite Hllm.
      * rewrite run_end. exists [], synthesis. simpl.
        rewrite !app_nil_r, Nat.add_0_r. split_and!; try done.
        -- by rewrite fmap_app.
        -- intros i Hi. assert (i = 0) as -> by lia.
           rewrite Nat.add_0_r. by eexists; rewrite Hllm.
    + split; [done|]. exists 0, []. simpl.
      rewrite !app_nil_r, Nat.add_0_r. split_and!; try done.
      * by rewrite fmap_app.
      * intros i Hi. lia.
      * by eexists.
  - destruct fuel as [|fuel];
      [simpl; split; [lia|intros i Hi [|[]]; lia]|].
    unfold at_hub. rewrite run_hub.
    fold (at_hub history route done.*1 au).
    rewrite (step_hub_routes llm roster done todo n p) by done.
    destruct fuel as [|fuel];
      [simpl; split; [lia|intros i Hi [|[]]; lia]|].
    rewrite run_spoke, step_spoke, calls_print by done.
    destruct (llm (calls w) _) as [reply|] eqn:Hllm.
    + specialize (IH (done ++ [(n, p)]) (history ++ [reply]) (Some n)
                    (au ++ [BySpoke n])
                    ((w ++ [Routing n]) ++
                     [Working n; Invoke (mkMessage system p :: history)])
                    fuel).
      rewrite fmap_app in IH. simpl in IH.
      assert (calls ((w ++ [Routing n]) ++
                [Working n; Invoke (mkMessage system p :: history)])
              = S (calls w)) as Hcalls.
      { rewrite <- app_assoc. simpl.
        rewrite (calls_app w). unfold calls, requests. simpl. lia. }
      assert (shape <$> ((w ++ [Routing n]) ++
                [Working n; Invoke (mkMessage system p :: history)])
              = (shape <$> w) ++ round n) as Hshape.
      { rewrite <- app_assoc. by rewrite fmap_app. }
      destruct (run llm roster fuel _ _) as [c' w'|e c' w'|c' w'].
      * destruct IH as (replies & synthesis & Hlen & -> & Hw & Hcall & Hsyn);
          [by rewrite <- app_assoc|].
        exists (reply :: replies), synthesis. simpl. split_and!.
        -- by rewrite Hlen.
        -- by rewrite <- !app_assoc.
        -- rewrite Hw, Hshape. unfold rounds. simpl.
           by rewrite <- !app_assoc.
        -- intros [|i] Hi.
           ++ rewrite Nat.add_0_r. by eexists; rewrite Hllm.
           ++ destruct (Hcall i) as [request Hrequest]; [lia|].
              exists request. rewrite Hcalls in Hrequest.
              by replace (calls w + S i) with (S (calls w) + i) by lia.
        -- rewrite Hcalls, <- app_assoc in Hsyn. simpl in Hsyn.
           by replace (calls w + S (length todo))
             with (S (calls w) + length todo) by lia.
      * destruct IH as (-> & j & replies & Hj & Hlen & Hm & Hv & Hau &
                        Hnode & Hw & Hcall & Hfail);
          [by rewrite <- app_assoc|].
        split; [done|]. exists (S j), (reply :: replies). simpl.
        split_and!.
        -- lia.
        -- by rewrite Hlen.
        -- by rewrite Hm, <- app_assoc.
        -- by rewrite Hv, <- app_assoc.
        -- by rewrite Hau, <- app_assoc.
        -- done.
        -- rewrite Hw, Hshape. unfold rounds. simpl.
           by rewrite <- !app_assoc.
        -- intros [|i] Hi.
           ++ rewrite Nat.add_0_r. by eexists; rewrite Hllm.
           ++ destruct (Hcall i) as [request Hrequest]; [lia|].
              exists request. rewrite Hcalls in Hrequest.
              by replace (calls w + S i) with (S (calls w) + i) by lia.
        -- destruct Hfail as [request Hrequest]. exists request.
           rewrite Hcalls in Hrequest.
           by replace (calls w + S j) with (S (calls w) + j) by lia.
      * destruct IH as [Hle Hcall]; [by rewrite <- app_assoc|].
        simpl. split; [lia|]. intros [|i] Hi Hran.
        -- rewrite Nat.add_0_r. by eexists; rewrite Hllm.
        -- destruct (Hcall i) as [request Hrequest]; [lia|lia|].
           exists request. rewrite Hcalls in Hrequest.
           by replace (calls w + S i) with (S (calls w) + i) by lia.
    + split; [done|]. exists 0, []. simpl.
      rewrite !app_nil_r, Nat.add_0_r. split_and!; try done; try lia.
      * rewrite <- app_assoc. by rewrite fmap_app.
      * by eexists.
Qed.

End Pass.

(** ** Whole runs *)


Lemma calls_shape (w : World) : calls (shape <$> w) = calls w.
Proof.
  unfold calls, requests. induction w as [|[] w IH]; simpl; auto.
Qed.

Lemma calls_rounds (names : list string) :
  calls (rounds names) = length names.
Proof.
  unfold rounds. induction names as [|n names IH]; [done|].
  change (calls (round n ++ (names ≫= round)) = S (length names)).
  by rewrite calls_app, IH.
Qed.

Lemma worker_of_shape (w : World) :
  omap worker_of (shape <$> w) = omap worker_of w.
Proof.
  induction w as [|[] w IH]; simpl; [done|..]; try exact IH.
  f_equal. exact IH.
Qed.

Lemma worker_of_rounds (names : list string) :
  omap worker_of (rounds names) = names.
Proof.
  unfold rounds. induction names as [|n names IH]; [done|].
  change (omap worker_of (round n ++ (names ≫= round)) = n :: names).
  by rewrite omap_app, IH.
Qed.

Lemma rounds_no_synthesis (names : list string) :
  Synthesizing ∉ rounds names.
Proof.
  unfold rounds. intros (n & Hin & _)%list_elem_of_bind.
  unfold round in Hin. by repeat (apply elem_of_cons in Hin as [|Hin]);
    try apply elem_of_nil in Hin.
Qed.

Section Runs.

Variable llm : nat → list Message → option Message.
Variable roster : list (string * string).
Hypothesis Hok : roster_ok roster.

Variable task : string.
Variable fuel : nat.

(** The ways a run on the seeded state can go. It stops on the bound only
    when the bound is too small, and then every call it came to make was
    answered. *)
Lemma invoke_outcome :
  match invoke llm roster fuel (initial_state task) with
  | Finished c w =>
      finished_after llm [] roster [mkMessage human task] [ByInput] [] c w
  | Aborted e c w =>
      aborted_after llm [] roster [mkMessage human task] [ByInput] [] e c w
  | RecursionLimit _ _ =>
      fuel ≤ 2 * length roster + 1 ∧
      ∀ i, i ≤ length roster →
           2 * i + 2 ≤ fuel ∨
           (i = length roster ∧ fuel = 2 * length roster + 1) →
           ∃ request, is_Some (llm i request)
  end.
Proof.
  exact (pass llm roster Hok roster [] [mkMessage human task] (Some "")
           [ByInput] [] fuel eq_refl).
Qed.

(** A model that answers the first [N + 1] calls carries the run to the
    end, when the bound leaves room for the [2 N + 1] node executions. *)
Lemma answers_finish :
  2 * length roster + 2 ≤ fuel →
  (∀ i request, i ≤ length roster → is_Some (llm i request)) →
  ∃ c w, invoke llm roster fuel (initial_state task) = Finished c w.
Proof.
  intros Hfuel Hanswers. pose proof invoke_outcome as H.
  destruct (invoke _ _ _ _) as [c w|e c w|c w]; [by eauto| |lia].
  destruct H as (_ & j & replies & Hj & _ & _ & _ & _ & _ & _ & _ &
                 request & Hnone).
  destruct (Hanswers j request Hj) as [reply Hsome].
  simpl in Hnone. congruence.
Qed.

End Runs.

(** C5. A run of the graph over a roster of [N] spokes, seeded with the
    task as its one message, ends whenever the model answers its first
    [N + 1] calls and the step bound is at least [2 N + 2]; and every run
    that ends, under whatever bound, has visited the whole roster, in its
    order, and holds [1 + N + 1] messages: the task, one reply per spoke,
    and the synthesis, whose content is what the run returns. *)
Theorem successful_run_visits_all
    (llm : nat → list Message → option Message)
    (roster : list (string * string)) (task : string) (fuel : nat) :
  roster_ok roster →
  (2 * length roster + 2 ≤ fuel →
   (∀ i request, i ≤ length roster → is_Some (llm i request)) →
   ∃ c w, invoke llm roster fuel (initial_state task) = Finished c w) ∧
  (∀ c w,
      invoke llm roster fuel (initial_state task) = Finished c w →
      visited (state c) = Some roster.*1 ∧
      ∃ replies synthesis,
        length replies = length roster ∧
        messages (state c)
          = Some (mkMessage human task :: replies ++ [synthesis]) ∧
        length (mkMessage human task :: replies ++ [synthesis])
          = 1 + length roster + 1 ∧
        authors c = ByInput :: (BySpoke <$> roster.*1) ++ [ByHub] ∧
        llm (length roster)
          (orchestrator_prompt :: mkMessage human task :: replies)
          = Some synthesis ∧
        final_synthesis (Finished c w) = Some (content synthesis)).
Proof.
  intros Hok. split; [by apply answers_finish|].
  intros c w Hrun.
  pose proof (invoke_outcome llm roster Hok task fuel) as H.
  rewrite Hrun in H.
  destruct H as (replies & synthesis & Hlen & -> & _ & _ & Hsyn).
  split; [done|]. exists replies, synthesis. simpl. split_and!.
  - done.
  - done.
  - rewrite length_app, Hlen. simpl. lia.
  - done.
  - done.
  - change (content <$>
              last ((mkMessage human task :: replies) ++ [synthesis])
            = Some (content synthesis)).
    by rewrite last_snoc.
Qed.

(** C6. A run ends whenever the model answers its first [N + 1] calls and
    the step bound is at least [2 N + 2]. A run that ends, under whatever
    bound, made one pass over the roster: for each name in turn the hub
    routed to it, the spoke worked and called the model once; only then
    did the hub synthesize, once, with the last call. The spokes invoked
    are the [N] names of the roster, no name twice, and the model was
    called [N + 1] times. Besides, a spoke step that returns always hands
    control back to the hub. *)
Theorem one_pass_then_synthesis
    (llm : nat → list Message → option Message)
    (roster : list (string * string)) (task : string) (fuel : nat) :
  roster_ok roster →
  (2 * length roster + 2 ≤ fuel →
   (∀ i request, i ≤ length roster → is_Some (llm i request)) →
   ∃ c w, invoke llm roster fuel (initial_state task) = Finished c w) ∧
  (∀ c w,
      invoke llm roster fuel (initial_state task) = Finished c w →
      shape <$> w = rounds roster.*1 ++ [Synthesizing; Invoke []] ∧
      omap worker_of w = roster.*1 ∧
      NoDup (omap worker_of w) ∧
      length (omap worker_of w) = length roster ∧
      calls w = length roster + 1) ∧
  (∀ name system_prompt st au w c' w',
      step llm roster (mkConfig (SpokeNode name system_prompt) st au) w
        = Ok c' w' →
      node c' = HubNode).
Proof.
  intros Hok. split_and!; [by apply answers_finish| |].
  - intros c w Hrun.
    pose proof (invoke_outcome llm roster Hok task fuel) as H.
    rewrite Hrun in H.
    destruct H as (replies & synthesis & _ & _ & Hw & _ & _).
    simpl in Hw.
    assert (omap worker_of w = roster.*1) as Hworkers.
    { rewrite <- worker_of_shape, Hw, omap_app, worker_of_rounds.
      simpl. by rewrite app_nil_r. }
    split_and!.
    + done.
    + done.
    + rewrite Hworkers. apply Hok.
    + by rewrite Hworkers, length_fmap.
    + rewrite <- calls_shape, Hw, calls_app, calls_rounds, length_fmap.
      done.
  - intros name system_prompt st au w c' w'. unfold step. simpl.
    unfold mbind, M_bind.
    destruct (make_spoke _ _ _ _ _); [|done]. by intros [= <- _].
Qed.

(** C3. When the model answers the first [k - 1] calls and fails the call
    number [k], for [1 ≤ k ≤ N], the run aborts with the failure of the
    model inside the spoke number [k] of the roster. The state it aborts
    on is the one that spoke was given: the task and the [k - 1] replies,
    the first [k - 1] names visited; no message comes from the hub, no
    synthesis was started, and the model was called [k] times. *)
Theorem failure_at_kth_worker
    (llm : nat → list Message → option Message)
    (roster : list (string * string)) (task : string) (fuel k : nat) :
  roster_ok roster →
  2 * length roster + 1 ≤ fuel →
  (1 ≤ k ≤ length roster) →
  (∀ i request, i < k - 1 → is_Some (llm i request)) →
  (∀ request, llm (k - 1) request = None) →
  ∃ c w,
    invoke llm roster fuel (initial_state task)
      = Aborted GenerationFailure c w ∧
    (∃ history, messages (state c) = Some history ∧
                length history = 1 + (k - 1)) ∧
    visited (state c) = Some (take (k - 1) roster.*1) ∧
    length (take (k - 1) roster.*1) = k - 1 ∧
    authors c = ByInput :: (BySpoke <$> take (k - 1) roster.*1) ∧
    (∃ name system_prompt,
       roster !! (k - 1) = Some (name, system_prompt) ∧
       node c = SpokeNode name system_prompt) ∧
    (Synthesizing ∉ w) ∧
    calls w = k.
Proof.
  intros Hok Hfuel Hk Hbefore Hfail.
  pose proof (invoke_outcome llm roster Hok task fuel) as H.
  destruct (invoke _ _ _ _) as [c w|e c w|c w]; [|clear Hfuel|].
  { destruct H as (_ & _ & _ & _ & _ & Hcall & _).
    destruct (Hcall (k - 1)) as [request [reply Hreply]]; [lia|].
    simpl in Hreply. by rewrite Hfail in Hreply. }
  2:{ destruct H as [_ Hcall].
      destruct (Hcall (k - 1)) as [request [reply Hreply]]; [lia|lia|].
      by rewrite Hfail in Hreply. }
  destruct H as (-> & j & replies & Hj & Hlen & Hm & Hv & Hau & Hnode &
                 Hw & Hcall & request & Hnone).
  simpl in *.
  assert (j = k - 1) as ->.
  { destruct (decide (j < k - 1)) as [Hlt|Hge].
    - destruct (Hbefore j request Hlt) as [reply Hreply]. congruence.
    - destruct (decide (k - 1 < j)) as [Hgt|Hle]; [|lia].
      destruct (Hcall (k - 1) Hgt) as [request' [reply Hreply]].
      by rewrite Hfail in Hreply. }
  destruct (roster !! (k - 1)) as [[name system_prompt]|] eqn:Hlookup.
  2:{ apply lookup_ge_None in Hlookup. lia. }
  exists c, w. rewrite <- fmap_take. split_and!.
  - done.
  - eexists. split; [done|]. simpl. lia.
  - done.
  - rewrite length_fmap, length_take. lia.
  - done.
  - by eexists _, _.
  - intros Hin. apply (list_elem_of_fmap_2 shape) in Hin. simpl in Hin.
    rewrite Hw in Hin. apply elem_of_app in Hin as [Hin|Hin].
    + by apply rounds_no_synthesis in Hin.
    + unfold round in Hin.
      by repeat (apply elem_of_cons in Hin as [|Hin]);
        try apply elem_of_nil in Hin.
  - rewrite <- calls_shape, Hw, calls_app, calls_rounds.
    rewrite length_fmap, length_take. unfold calls, requests. simpl. lia.
Qed.

(** C2. With no spoke configured the run is not rejected: the hub finds
    nothing pending and synthesizes at once. Under any step bound of at
    least 2 the run makes exactly one call to the model, the synthesis
    request over the task alone, and ends with the answer appended, or
    aborts when that call fails. *)
Theorem empty_roster_synthesizes_at_once
    (llm : nat → list Message → option Message) (task : string)
    (fuel : nat) :
  let request := [orchestrator_prompt; mkMessage human task] in
  invoke llm [] (S (S fuel)) (initial_state task) =
    match llm 0 request with
    | Some synthesis =>
        Finished
          (mkConfig EndNode
             {| messages := Some [mkMessage human task; synthesis];
                next := Some END; visited := Some [] |}
             [ByInput; ByHub])
          [Synthesizing; Invoke request]
    | None =>
        Aborted GenerationFailure
          (mkConfig HubNode (initial_state task) [ByInput])
          [Synthesizing; Invoke request]
    end.
Proof.
  intros request.
  change (invoke llm [] (S (S fuel)) (initial_state task))
    with (run llm [] (S (S fuel))
            (at_hub [mkMessage human task] (Some "") [] [ByInput]) []).
  unfold at_hub at 1. rewrite run_hub.
  fold (at_hub [mkMessage human task] (Some "") [] [ByInput]).
  pose proof (step_hub_finalizes llm [] [mkMessage human task] (Some "")
                [ByInput] []) as Hstep.
  cbn [fmap list_fmap] in Hstep. rewrite Hstep.
  simpl. fold request. change (calls []) with 0.
  by destruct (llm 0 request).
Qed.

(** ** The invariant of [visited] *)


Lemma contributions_app (name : string) (a b : list Author) :
  contributions name (a ++ b) = contributions name a + contributions name b.
Proof. unfold contributions. by rewrite filter_app, length_app. Qed.

Lemma contributions_hub (name : string) : contributions name [ByHub] = 0.
Proof. done. Qed.

Lemma contributions_spoke (name n : string) :
  contributions name [BySpoke n] = if decide (name = n) then 1 else 0.
Proof.
  unfold contributions. rewrite filter_cons, filter_nil.
  destruct (decide (name = n)) as [->|Hne].
  - by rewrite decide_True.
  - rewrite decide_False; [done|]. by intros [= ->].
Qed.

Lemma invariant_tracks (roster : list (string * string)) (c : Config) :
  visited_invariant roster c → tracks roster c.
Proof.
  intros (seen & history & Hv & Hm & Hlen & Hsub & Hdup & Hcount & _).
  exists seen. split_and!; [done|done| | |by rewrite Hm].
  - intros name. rewrite Hcount. by destruct (decide (name ∈ seen)).
  - intros name. rewrite Hcount. destruct (decide (name ∈ seen)); lia.
Qed.

Lemma invariant_start (roster : list (string * string)) (task : string) :
  visited_invariant roster
    (mkConfig HubNode (initial_state task) [ByInput]).
Proof.
  exists [], [mkMessage human task]. simpl. split_and!; try done.
  - by intros x Hx%elem_of_nil.
  - constructor.
Qed.

Lemma invariant_step (llm : nat → list Message → option Message)
    (roster : list (string * string)) (c : Config) (w : World)
    (c' : Config) (w' : World) :
  visited_invariant roster c →
  step llm roster c w = Ok c' w' →
  visited_invariant roster c'.
Proof.
  destruct c as [nd [m nx v] au].
  intros (seen & history & Hv & Hm & Hlen & Hsub & Hdup & Hcount & Hnode).
  simpl in *. subst m v. destruct nd as [|n p|].
  - unfold step. simpl. unfold mbind at 1. unfold M_bind.
    destruct (first_pending roster.*1 seen) as [name|] eqn:Hscan.
    + rewrite (hub_pending llm roster _ w name) by done.
      unfold route_from_hub, path_map. unfold_M. simpl.
      apply first_pending_Some in Hscan as (pre & post & Hsplit & _ & Hnew).
      destruct (decide (name = END)) as [_|_].
      * intros [= <- _]. exists seen, history. simpl.
        by rewrite app_nil_r.
      * destruct (prompt_of name roster) as [p|]; [|done].
        intros [= <- _]. exists seen, history. simpl.
        rewrite app_nil_r. split_and!; try done.
        intros n' p' [= <- _]. split; [|done].
        rewrite Hsplit. apply elem_of_app. right. by left.
    + rewrite (hub_done llm roster _ w history) by done.
      destruct (llm _ _) as [response|]; [|done].
      unfold route_from_hub, path_map. unfold_M. simpl.
      intros [= <- _]. exists seen, (history ++ [response]). simpl.
      split_and!; try done.
      * rewrite !length_app, Hlen. done.
      * intros name. by rewrite contributions_app, contributions_hub,
          Nat.add_0_r.
  - rewrite step_spoke.
    destruct (llm _ _) as [response|]; [|done].
    intros [= <- _]. destruct (Hnode n p eq_refl) as [Hin Hnew].
    exists (seen ++ [n]), (history ++ [response]). simpl.
    split_and!; try done.
    + rewrite !length_app, Hlen. done.
    + intros x [Hx| ->%list_elem_of_singleton]%elem_of_app; auto.
    + apply NoDup_app. split_and!; [done| |apply NoDup_singleton].
      intros x Hx ->%list_elem_of_singleton. done.
    + intros name. rewrite contributions_app, contributions_spoke, Hcount.
      destruct (decide (name = n)) as [->|Hne].
      * rewrite decide_False by done. rewrite decide_True; [done|].
        apply elem_of_app. right. by left.
      * destruct (decide (name ∈ seen)) as [Hs|Hs].
        -- rewrite decide_True; [done|]. apply elem_of_app. by left.
        -- rewrite decide_False; [done|].
           intros [|Heq%list_elem_of_singleton]%elem_of_app; done.
  - intros [= <- _]. by exists seen, history.
Qed.

Lemma reachable_invariant (llm : nat → list Message → option Message)
    (roster : list (string * string)) (task : string) (c : Config)
    (w : World) :
  reachable llm roster task c w → visited_invariant roster c.
Proof.
  induction 1 as [|c w c' w' _ IH _ Hstep].
  - apply invariant_start.
  - by apply (invariant_step llm roster c w c' w').
Qed.

(** C4. In every configuration a run reaches, [visited] is within the
    roster and holds exactly the names whose spoke appended one message to
    the transcript, no spoke having appended more than one; and the
    configuration any step of the executor leads to, hub or spoke, is again
    such a one. *)
Theorem visited_tracks_contributions
    (llm : nat → list Message → option Message)
    (roster : list (string * string)) (task : string) (c : Config)
    (w : World) :
  reachable llm roster task c w →
  tracks roster c ∧
  ∀ c' w', step llm roster c w = Ok c' w' → tracks roster c'.
Proof.
  intros Hreach%reachable_invariant. split.
  - by apply invariant_tracks.
  - intros c' w' Hstep. apply invariant_tracks.
    by apply (invariant_step llm roster c w c' w').
Qed.

(** * The configured roster: instances of the theorems *)

(** Closes a decidable closed proposition by evaluation. *)
Ltac by_evaluation := apply (bool_decide_unpack _); vm_compute; exact I.

Lemma hub_scans_roster_in_order_witness :
  hub echo_llm SPECIALISTS (seen_state ["researcher"]) []
    = Ok (route_to "analyst") [Routing "analyst"] ∧
  hub echo_llm SPECIALISTS
    (seen_state ["researcher"; "analyst"; "critic"; "writer"]) []
    = Ok {| messages := Some [mkMessage ai "reply 0"]; next := Some END;
            visited := None |}
         [Synthesizing;
          Invoke [orchestrator_prompt; mkMessage human "Explain X."]].
Proof.
  split.
  - apply (proj1 (hub_scans_roster_in_order echo_llm SPECIALISTS
                    (seen_state ["researcher"]) [])
             ["researcher"] "analyst" ["critic"; "writer"]).
    + reflexivity.
    + by_evaluation.
    + by_evaluation.
  - apply (proj2 (hub_scans_roster_in_order echo_llm SPECIALISTS
                    (seen_state ["researcher"; "analyst"; "critic"; "writer"])
                    [])).
    + by_evaluation.
    + reflexivity.
Defined.

Lemma spoke_contributes_once_witness :
  ∃ update w',
    make_spoke echo_llm "critic" "Be critical." (seen_state ["researcher"]) []
      = Ok update w' ∧
    w' = [Working "critic";
          Invoke [mkMessage system "Be critical.";
                  mkMessage human "Explain X."]] ∧
    requests w'
      = [] ++ [[mkMessage system "Be critical.";
                mkMessage human "Explain X."]] ∧
    messages (apply_update (seen_state ["researcher"]) update)
      = Some ([mkMessage human "Explain X."] ++ [mkMessage ai "reply 0"]) ∧
    visited (apply_update (seen_state ["researcher"]) update)
      = Some (["researcher"] ++ ["critic"]) ∧
    next (apply_update (seen_state ["researcher"]) update) = Some "".
Proof.
  apply (spoke_contributes_once echo_llm "critic" "Be critical."
           (seen_state ["researcher"]) [] [mkMessage human "Explain X."]
           (mkMessage ai "reply 0")).
  - reflexivity.
  - reflexivity.
Defined.

Lemma hub_decision_idempotent_witness :
  next {| messages := Some [mkMessage ai "reply 0"]; next := Some END;
          visited := None |}
  = next {| messages := Some [mkMessage ai "reply 1"]; next := Some END;
            visited := None |}.
Proof.
  apply (proj1 (hub_decision_idempotent echo_llm SPECIALISTS
                  (seen_state ["researcher"; "analyst"; "critic"; "writer"]))
           [] [Invoke []] _ _
           [Synthesizing;
            Invoke [orchestrator_prompt; mkMessage human "Explain X."]]
           [Invoke []; Synthesizing;
            Invoke [orchestrator_prompt; mkMessage human "Explain X."]]).
  - reflexivity.
  - reflexivity.
Defined.

Lemma hub_frame_witness :
  visited (apply_update (seen_state ["researcher"]) (route_to "analyst"))
  = visited (seen_state ["researcher"]).
Proof.
  apply (hub_frame echo_llm SPECIALISTS (seen_state ["researcher"]) []
           (route_to "analyst") [Routing "analyst"]).
  reflexivity.
Defined.

Lemma missing_visited_is_empty_witness :
  make_spoke echo_llm "critic" "Be critical."
    {| messages := Some [mkMessage human "Explain X."]; next := Some "";
       visited := None |} []
  = Ok {| messages := Some [mkMessage ai "reply 0"]; next := None;
          visited := Some ["critic"] |}
       [Working "critic";
        Invoke [mkMessage system "Be critical.";
                mkMessage human "Explain X."]].
Proof.
  apply (missing_visited_is_empty echo_llm
           (Some [mkMessage human "Explain X."]) (Some "") []).
  - reflexivity.
  - reflexivity.
Defined.

Lemma successful_run_visits_all_witness :
  ∃ c w,
    app_invoke echo_llm (initial_state "Explain X.") = Finished c w ∧
    visited (state c) = Some ["researcher"; "analyst"; "critic"; "writer"] ∧
    length <$> messages (state c) = Some 6 ∧
    final_synthesis (Finished c w) = Some "reply 4".
Proof.
  destruct (successful_run_visits_all echo_llm SPECIALISTS "Explain X."
              default_recursion_limit) as [Hends Hall].
  - by_evaluation.
  - destruct Hends as (c & w & Hrun).
    + vm_compute. lia.
    + intros i request _. by eexists.
    + exists c, w.
      destruct (Hall c w Hrun)
        as (Hv & replies & synthesis & _ & Hm & Hlen & _ & Hsyn & Hout).
      split_and!.
      * exact Hrun.
      * exact Hv.
      * rewrite Hm. exact (f_equal Some Hlen).
      * rewrite Hout. injection Hsyn as <-. reflexivity.
Defined.

Lemma one_pass_then_synthesis_witness :
  ∃ c w,
    app_invoke echo_llm (initial_state "Explain X.") = Finished c w ∧
    omap worker_of w = ["researcher"; "analyst"; "critic"; "writer"] ∧
    calls w = 5.
Proof.
  destruct (one_pass_then_synthesis echo_llm SPECIALISTS "Explain X."
              default_recursion_limit) as (Hends & Hall & _).
  - by_evaluation.
  - destruct Hends as (c & w & Hrun).
    + vm_compute. lia.
    + intros i request _. by eexists.
    + exists c, w.
      destruct (Hall c w Hrun) as (_ & Hworkers & _ & _ & Hcalls).
      split_and!; [exact Hrun|exact Hworkers|exact Hcalls].
Defined.

Lemma failure_at_kth_worker_witness :
  ∃ c w,
    app_invoke (failing_llm 2) (initial_state "Explain X.")
      = Aborted GenerationFailure c w ∧
    (∃ history, messages (state c) = Some history ∧ length history = 3) ∧
    visited (state c) = Some ["researcher"; "analyst"] ∧
    (Synthesizing ∉ w) ∧
    calls w = 3.
Proof.
  destruct (failure_at_kth_worker (failing_llm 2) SPECIALISTS "Explain X."
              default_recursion_limit 3)
    as (c & w & Hrun & Hm & Hv & _ & _ & _ & Hsyn & Hcalls).
  - by_evaluation.
  - vm_compute. lia.
  - vm_compute. lia.
  - intros i request Hi. unfold failing_llm.
    destruct (decide (i < 2)) as [_|Hge]; [by eexists|simpl in Hi; lia].
  - reflexivity.
  - exists c, w. split_and!; [exact Hrun|exact Hm|exact Hv|exact Hsyn|exact Hcalls].
Defined.

Lemma visited_tracks_contributions_witness :
  tracks SPECIALISTS
    (at_hub [mkMessage human "Explain X."; mkMessage ai "reply 0"]
       (Some "researcher") ["researcher"] [ByInput; BySpoke "researcher"]).
Proof.
  refine (proj1 (visited_tracks_contributions echo_llm SPECIALISTS
                   "Explain X." _ _ _)).
  eapply reachable_step.
  - eapply reachable_step.
    + apply reachable_start.
    + discriminate.
    + reflexivity.
  - discriminate.
  - reflexivity.
Defined.

(** C2, as the specification words it, fails: with no spoke configured and
    a model that answers, the run raises nothing. It ends normally after
    one call to the model, with a synthesis of the task alone. *)
Lemma empty_roster_is_not_rejected :
  (∃ c w,
     invoke echo_llm [] default_recursion_limit (initial_state "Explain X.")
       = Finished c w ∧
     calls w = 1 ∧
     messages (state c)
       = Some [mkMessage human "Explain X."; mkMessage ai "reply 0"]) ∧
  ¬ (∃ e c w,
       invoke echo_llm [] default_recursion_limit
         (initial_state "Explain X.")
       = Aborted e c w).
Proof.
  split.
  - eexists _, _. split_and!; reflexivity.
  - intros (e & c & w & Hrun). vm_compute in Hrun. discriminate Hrun.
Qed.

(** * Further properties of the nodes and of the executor *)

(** ** Single node executions on any state *)

Lemma first_pending_elem (names seen : list string) (name : string) :
  first_pending names seen = Some name → name ∈ names ∧ name ∉ seen.
Proof.
  intros (pre & post & -> & _ & Hnew)%first_pending_Some. split; [|done].
  apply elem_of_app. right. by left.
Qed.

Lemma prompt_of_elem (name : string) (roster : list (string * string)) :
  name ∈ roster.*1 → is_Some (prompt_of name roster).
Proof.
  induction roster as [|[n p] roster IH]; simpl.
  - by intros ?%elem_of_nil.
  - intros [->|Hin]%elem_of_cons.
    + rewrite decide_True by done. by eexists.
    + destruct (decide (n = name)); [by eexists|by apply IH].
Qed.

Lemma first_pending_ext (names seen1 seen2 : list string) :
  (∀ n, n ∈ names → n ∈ seen1 ↔ n ∈ seen2) →
  first_pending names seen1 = first_pending names seen2.
Proof.
  induction names as [|n names IH]; intros Hsame; [done|]. simpl.
  assert (n ∈ seen1 ↔ n ∈ seen2) as Hn by (apply Hsame; by left).
  rewrite IH by (intros x Hx; apply Hsame; by right).
  destruct (decide (n ∈ seen1)), (decide (n ∈ seen2)); tauto.
Qed.

Section AnyState.

Variable llm : nat → list Message → option Message.
Variable roster : list (string * string).

Lemma step_hub_pending (st : AgentState) (au : list Author) (w : World)
    (name : string) :
  first_pending roster.*1 (default [] (visited st)) = Some name →
  step llm roster (mkConfig HubNode st au) w =
    if decide (name = END)
    then Ok (mkConfig EndNode (apply_update st (route_to name)) au)
            (w ++ [Routing name])
    else match prompt_of name roster with
         | Some p =>
             Ok (mkConfig (SpokeNode name p)
                   (apply_update st (route_to name)) au)
                (w ++ [Routing name])
         | None => Raise (KeyError name) (w ++ [Routing name])
         end.
Proof.
  intros Hscan. unfold step. simpl. unfold mbind at 1. unfold M_bind.
  rewrite (hub_pending llm roster st w name Hscan).
  unfold route_from_hub, path_map. unfold_M. simpl.
  destruct (decide (name = END)); [by rewrite app_nil_r|].
  destruct (prompt_of name roster); [by rewrite app_nil_r|done].
Qed.

Lemma step_hub_done (st : AgentState) (au : list Author) (w : World)
    (history : list Message) :
  first_pending roster.*1 (default [] (visited st)) = None →
  messages st = Some history →
  step llm roster (mkConfig HubNode st au) w =
    match llm (calls w) (orchestrator_prompt :: history) with
    | Some response =>
        Ok (mkConfig EndNode
              {| messages := Some (history ++ [response]);
                 next := Some END; visited := visited st |}
              (au ++ [ByHub]))
           (w ++ [Synthesizing; Invoke (orchestrator_prompt :: history)])
    | None =>
        Raise GenerationFailure
          (w ++ [Synthesizing; Invoke (orchestrator_prompt :: history)])
    end.
Proof.
  intros Hscan Hm. unfold step. simpl. unfold mbind at 1. unfold M_bind.
  rewrite (hub_done llm roster st w history Hscan Hm).
  destruct (llm _ _) as [response|]; [|done].
  unfold route_from_hub, path_map, apply_update. unfold_M. simpl.
  by rewrite Hm.
Qed.

Lemma step_hub_no_messages (st : AgentState) (au : list Author)
    (w : World) :
  first_pending roster.*1 (default [] (visited st)) = None →
  messages st = None →
  step llm roster (mkConfig HubNode st au) w
  = Raise (KeyError "messages") (w ++ [Synthesizing]).
Proof.
  intros Hscan Hm. unfold step, hub. simpl. rewrite Hscan, Hm.
  by unfold_M.
Qed.

Lemma step_spoke_any (n p : string) (st : AgentState) (au : list Author)
    (w : World) (history : list Message) :
  messages st = Some history →
  step llm roster (mkConfig (SpokeNode n p) st au) w =
    match llm (calls w) (mkMessage system p :: history) with
    | Some response =>
        Ok (mkConfig HubNode
              {| messages := Some (history ++ [response]);
                 next := next st;
                 visited := Some (default [] (visited st) ++ [n]) |}
              (au ++ [BySpoke n]))
           (w ++ [Working n; Invoke (mkMessage system p :: history)])
    | None =>
        Raise GenerationFailure
          (w ++ [Working n; Invoke (mkMessage system p :: history)])
    end.
Proof.
  intros Hm. unfold step. simpl. unfold mbind at 1. unfold M_bind.
  rewrite (spoke_run llm n p st w history Hm). simpl.
  destruct (llm _ _) as [response|]; [|done].
  unfold apply_update. simpl. by rewrite Hm.
Qed.

Lemma step_spoke_no_messages (n p : string) (st : AgentState)
    (au : list Author) (w : World) :
  messages st = None →
  step llm roster (mkConfig (SpokeNode n p) st au) w
  = Raise (KeyError "messages") (w ++ [Working n]).
Proof.
  intros Hm. unfold step, make_spoke. simpl. rewrite Hm. by unfold_M.
Qed.

End AnyState.

Lemma requests_app (w1 w2 : World) :
  requests (w1 ++ w2) = requests w1 ++ requests w2.
Proof. unfold requests. apply omap_app. Qed.

(** X1. The hub reads [visited] as a set, and only the roster's part of it:
    two states with the same transcript whose [visited] lists hold the same
    roster names, in whatever order, with whatever repetitions and
    whatever foreign names, get the same outcome from the hub. *)
Theorem hub_reads_visited_as_set
    (llm : nat → list Message → option Message)
    (roster : list (string * string)) (s1 s2 : AgentState) (w : World) :
  messages s1 = messages s2 →
  (∀ n, n ∈ roster.*1 →
        n ∈ default [] (visited s1) ↔ n ∈ default [] (visited s2)) →
  hub llm roster s1 w = hub llm roster s2 w.
Proof.
  intros Hm Hsame. unfold hub.
  by rewrite (first_pending_ext _ _ _ Hsame), Hm.
Qed.

(** X2. A node execution fails in two ways only. On a state without the
    [messages] key it raises [KeyError] for that key, before any call to
    the model; otherwise the one call it makes to the model failed. The
    route the hub writes is always found by the conditional edge. *)
Theorem step_failures
    (llm : nat → list Message → option Message)
    (roster : list (string * string)) (c : Config) (w : World)
    (e : Error) (w' : World) :
  step llm roster c w = Raise e w' →
  (e = KeyError "messages" ∧ messages (state c) = None ∧
   requests w' = requests w) ∨
  (e = GenerationFailure ∧
   ∃ history request,
     messages (state c) = Some history ∧
     llm (calls w) request = None ∧
     requests w' = requests w ++ [request]).
Proof.
  destruct c as [[|n p|] st au]; simpl.
  - destruct (first_pending roster.*1 (default [] (visited st)))
      as [name|] eqn:Hscan.
    + rewrite (step_hub_pending llm roster st au w name Hscan).
      destruct (decide (name = END)); [done|].
      apply first_pending_elem in Hscan as [Hin _].
      by destruct (prompt_of_elem name roster Hin) as [p ->].
    + destruct (messages st) as [history|] eqn:Hm.
      * rewrite (step_hub_done llm roster st au w history Hscan Hm).
        destruct (llm _ _) eqn:Hllm; [done|]. intros [= <- <-].
        right. split; [done|]. eexists _, _. split_and!; [done|done|].
        rewrite requests_app. done.
      * rewrite (step_hub_no_messages llm roster st au w Hscan Hm).
        intros [= <- <-]. left. split_and!; [done|done|].
        rewrite requests_app. simpl. by rewrite app_nil_r.
  - destruct (messages st) as [history|] eqn:Hm.
    + rewrite (step_spoke_any llm roster n p st au w history Hm).
      destruct (llm _ _) eqn:Hllm; [done|]. intros [= <- <-].
      right. split; [done|]. eexists _, _. split_and!; [done|done|].
      rewrite requests_app. done.
    + rewrite (step_spoke_no_messages llm roster n p st au w Hm).
      intros [= <- <-]. left. split_and!; [done|done|].
      rewrite requests_app. simpl. by rewrite app_nil_r.
  - done.
Qed.

(** X3. A node execution only appends. The transcript after it is the
    transcript before followed by at most one message, [visited] is the
    list before followed by at most one name, the events so far are kept,
    and the number of messages appended is the number of calls made to the
    model. *)
Theorem step_appends_only
    (llm : nat → list Message → option Message)
    (roster : list (string * string)) (c : Config) (w : World)
    (c' : Config) (w' : World) :
  step llm roster c w = Ok c' w' →
  ∃ new added events,
    default [] (messages (state c'))
      = default [] (messages (state c)) ++ new ∧
    default [] (visited (state c'))
      = default [] (visited (state c)) ++ added ∧
    w' = w ++ events ∧
    length new ≤ 1 ∧
    length added ≤ 1 ∧
    calls w' = calls w + length new ∧
    length (authors c') = length (authors c) + length new.
Proof.
  destruct c as [[|n p|] st au]; simpl.
  - destruct (first_pending roster.*1 (default [] (visited st)))
      as [name|] eqn:Hscan.
    + rewrite (step_hub_pending llm roster st au w name Hscan).
      assert (calls (w ++ [Routing name]) = calls w + 0) as Hcalls
        by (rewrite calls_print by done; lia).
      destruct (decide (name = END)).
      * intros [= <- <-]. exists [], [], [Routing name]. simpl.
        rewrite !app_nil_r. split_and!; try done; lia.
      * destruct (prompt_of name roster); [|done].
        intros [= <- <-]. exists [], [], [Routing name]. simpl.
        rewrite !app_nil_r. split_and!; try done; lia.
    + destruct (messages st) as [history|] eqn:Hm.
      * rewrite (step_hub_done llm roster st au w history Hscan Hm).
        destruct (llm _ _) as [response|]; [|done]. intros [= <- <-].
        exists [response], [],
          [Synthesizing; Invoke (orchestrator_prompt :: history)].
        simpl. rewrite !app_nil_r, length_app, calls_app.
        split_and!; try done; lia.
      * by rewrite (step_hub_no_messages llm roster st au w Hscan Hm).
  - destruct (messages st) as [history|] eqn:Hm.
    + rewrite (step_spoke_any llm roster n p st au w history Hm).
      destruct (llm _ _) as [response|]; [|done]. intros [= <- <-].
      exists [response], [n],
        [Working n; Invoke (mkMessage system p :: history)].
      simpl. rewrite length_app, calls_app. split_and!; try done; lia.
    + by rewrite (step_spoke_no_messages llm roster n p st au w Hm).
  - intros [= <- <-]. exists [], [], []. simpl. rewrite !app_nil_r.
    split_and!; try done; lia.
Qed.

(** X4. When the model answers the [N] spokes and fails the synthesis
    call, the run aborts in the hub with the failure of the model: every
    name is visited, the transcript holds the task and the [N] replies and
    no message of the hub, and the model was called [N + 1] times. *)
Theorem failure_at_synthesis
    (llm : nat → list Message → option Message)
    (roster : list (string * string)) (task : string) (fuel : nat) :
  roster_ok roster →
  2 * length roster + 1 ≤ fuel →
  (∀ i request, i < length roster → is_Some (llm i request)) →
  (∀ request, llm (length roster) request = None) →
  ∃ c w replies,
    invoke llm roster fuel (initial_state task)
      = Aborted GenerationFailure c w ∧
    node c = HubNode ∧
    messages (state c) = Some (mkMessage human task :: replies) ∧
    length replies = length roster ∧
    visited (state c) = Some roster.*1 ∧
    authors c = ByInput :: (BySpoke <$> roster.*1) ∧
    shape <$> w = rounds roster.*1 ++ [Synthesizing; Invoke []] ∧
    calls w = length roster + 1.
Proof.
  intros Hok Hfuel Hbefore Hfail.
  pose proof (invoke_outcome llm roster Hok task fuel) as H.
  destruct (invoke _ _ _ _) as [c w|e c w|c w]; [|clear Hfuel|].
  { destruct H as (_ & _ & _ & _ & _ & Hcall & _).
    destruct (Hcall (length roster)) as [request [reply Hreply]]; [lia|].
    simpl in Hreply. by rewrite Hfail in Hreply. }
  2:{ destruct H as [_ Hcall].
      destruct (Hcall (length roster)) as [request [reply Hreply]];
        [lia|lia|].
      by rewrite Hfail in Hreply. }
  destruct H as (-> & j & replies & Hj & Hlen & Hm & Hv & Hau & Hnode &
                 Hw & _ & request & Hnone).
  simpl in *.
  assert (j = length roster) as ->.
  { destruct (decide (j < length roster)) as [Hlt|]; [|lia].
    destruct (Hbefore j request Hlt) as [reply Hreply]. congruence. }
  rewrite lookup_ge_None_2 in Hnode, Hw by done.
  rewrite take_ge in Hv, Hau, Hw by done.
  exists c, w, replies. split_and!; try done.
  rewrite <- calls_shape, Hw, calls_app, calls_rounds, length_fmap.
  unfold calls, requests. simpl. lia.
Qed.

Lemma failure_at_synthesis_witness :
  ∃ c w replies,
    app_invoke (failing_llm 4) (initial_state "Explain X.")
      = Aborted GenerationFailure c w ∧
    node c = HubNode ∧
    messages (state c) = Some (mkMessage human "Explain X." :: replies) ∧
    length replies = 4 ∧
    visited (state c) = Some ["researcher"; "analyst"; "critic"; "writer"] ∧
    calls w = 5.
Proof.
  destruct (failure_at_synthesis (failing_llm 4) SPECIALISTS "Explain X."
              default_recursion_limit)
    as (c & w & replies & Hrun & Hnode & Hm & Hlen & Hv & _ & _ & Hcalls).
  - by_evaluation.
  - vm_compute. lia.
  - intros i request Hi. unfold failing_llm.
    destruct (decide (i < 4)) as [_|Hge]; [by eexists|simpl in Hi; lia].
  - reflexivity.
  - exists c, w, replies.
    split_and!;
      [exact Hrun|exact Hnode|exact Hm|exact Hlen|exact Hv|exact Hcalls].
Defined.

(** ** Runs on any input *)

Lemma run_step (llm : nat → list Message → option Message)
    (roster : list (string * string)) (fuel : nat) (c : Config)
    (w : World) :
  node c ≠ EndNode →
  run llm roster (S fuel) c w =
    match step llm roster c w with
    | Ok c' w' => run llm roster fuel c' w'
    | Raise e w' => Aborted e c w'
    end.
Proof. by destruct c as [[] ? ?]. Qed.

Lemma run_at_end (llm : nat → list Message → option Message)
    (roster : list (string * string)) (fuel : nat) (c : Config)
    (w : World) :
  node c = EndNode → run llm roster (S fuel) c w = Finished c w.
Proof. by destruct c as [[] ? ?]. Qed.

(** The only step that reaches the terminal point is the synthesis of the
    hub. *)
Lemma step_into_end (llm : nat → list Message → option Message)
    (roster : list (string * string)) (c : Config) (w : World)
    (c' : Config) (w' : World) :
  END ∉ roster.*1 →
  step llm roster c w = Ok c' w' →
  node c ≠ EndNode →
  node c' = EndNode →
  ∃ history response,
    messages (state c) = Some history ∧
    Forall (λ n, n ∈ default [] (visited (state c))) roster.*1 ∧
    llm (calls w) (orchestrator_prompt :: history) = Some response ∧
    state c' = {| messages := Some (history ++ [response]);
                  next := Some END; visited := visited (state c) |} ∧
    w' = w ++ [Synthesizing; Invoke (orchestrator_prompt :: history)].
Proof.
  intros Hend. destruct c as [[|n p|] st au]; simpl; [| |done].
  - destruct (first_pending roster.*1 (default [] (visited st)))
      as [name|] eqn:Hscan.
    + rewrite (step_hub_pending llm roster st au w name Hscan).
      destruct (decide (name = END)) as [->|_].
      * by apply first_pending_elem in Hscan as [Hin _].
      * destruct (prompt_of name roster); [|done].
        by intros [= <- _] _ [=].
    + destruct (messages st) as [history|] eqn:Hm.
      * rewrite (step_hub_done llm roster st au w history Hscan Hm).
        destruct (llm _ _) as [response|] eqn:Hllm; [|done].
        intros [= <- <-] _ _. exists history, response.
        split_and!; try done. by apply first_pending_None.
      * by rewrite (step_hub_no_messages llm roster st au w Hscan Hm).
  - destruct (messages st) as [history|] eqn:Hm.
    + rewrite (step_spoke_any llm roster n p st au w history Hm).
      destruct (llm _ _); [|done]. by intros [= <- _] _ [=].
    + by rewrite (step_spoke_no_messages llm roster n p st au w Hm).
Qed.

Lemma run_finished_through_synthesis
    (llm : nat → list Message → option Message)
    (roster : list (string * string)) (fuel : nat) :
  END ∉ roster.*1 →
  ∀ c0 w0 c w,
    node c0 ≠ EndNode →
    run llm roster fuel c0 w0 = Finished c w →
    ∃ history response w',
      llm (calls w') (orchestrator_prompt :: history) = Some response ∧
      Forall (λ n, n ∈ default [] (visited (state c))) roster.*1 ∧
      state c = {| messages := Some (history ++ [response]);
                   next := Some END; visited := visited (state c) |} ∧
      w = w' ++ [Synthesizing; Invoke (orchestrator_prompt :: history)].
Proof.
  intros Hend. induction fuel as [|fuel IH]; intros c0 w0 c w Hnode.
  - by destruct c0 as [[] ? ?].
  - rewrite run_step by done.
    destruct (step llm roster c0 w0) as [c1 w1|] eqn:Hstep; [|done].
    destruct (node c1) eqn:Hnode1.
    + apply IH. by rewrite Hnode1.
    + apply IH. by rewrite Hnode1.
    + destruct fuel as [|fuel]; [done|].
      rewrite run_at_end by done. intros [= <- <-].
      destruct (step_into_end llm roster c0 w0 c1 w1 Hend Hstep Hnode Hnode1)
        as (history & response & _ & Hall & Hllm & Hstate & ->).
      exists history, response, w0. split_and!; try done.
      * by rewrite Hstate.
      * rewrite Hstate at 1. simpl. by rewrite Hstate.
Qed.

(** X5. Whatever the input, a run ends only through the synthesis of the
    hub (no spoke being named like the terminal point): when it ends,
    every name of the roster is in [visited], the last event is the
    synthesis request over the whole transcript before it, and the last
    message of the transcript is the answer to that request, which is what
    the run returns. *)
Theorem run_ends_only_through_synthesis
    (llm : nat → list Message → option Message)
    (roster : list (string * string)) (fuel : nat) (input : AgentState)
    (c : Config) (w : World) :
  END ∉ roster.*1 →
  invoke llm roster fuel input = Finished c w →
  ∃ history response w0,
    messages (state c) = Some (history ++ [response]) ∧
    w = w0 ++ [Synthesizing; Invoke (orchestrator_prompt :: history)] ∧
    llm (calls w0) (orchestrator_prompt :: history) = Some response ∧
    Forall (λ n, n ∈ default [] (visited (state c))) roster.*1 ∧
    next (state c) = Some END ∧
    final_synthesis (Finished c w) = Some (content response).
Proof.
  intros Hend Hrun. unfold invoke in Hrun.
  apply run_finished_through_synthesis in Hrun
    as (history & response & w0 & Hllm & Hall & Hstate & ->); [|done..].
  exists history, response, w0.
  assert (messages (state c) = Some (history ++ [response])) as Hm
    by (by rewrite Hstate).
  split_and!; try done.
  - by rewrite Hstate.
  - simpl. rewrite Hm. simpl. by rewrite last_snoc.
Qed.

Lemma run_ends_only_through_synthesis_witness :
  ∃ history response w0,
    [mkMessage human "Explain X."; mkMessage ai "reply 0"]
      = history ++ [response] ∧
    [Synthesizing;
     Invoke [orchestrator_prompt; mkMessage human "Explain X."]]
      = w0 ++ [Synthesizing; Invoke (orchestrator_prompt :: history)].
Proof.
  destruct (run_ends_only_through_synthesis echo_llm
              [("critic", "Be critical.")] 3
              {| messages := Some [mkMessage human "Explain X."];
                 next := None; visited := Some ["critic"; "unknown"] |}
              _ _ ltac:(by_evaluation) eq_refl)
    as (history & response & w0 & Hm & Hw & _).
  exists history, response, w0. split.
  - injection Hm as <-. reflexivity.
  - exact Hw.
Defined.

(** ** Termination *)

Lemma pending_le (roster : list (string * string)) (seen : list string) :
  pending roster seen ≤ length roster.
Proof.
  unfold pending. etrans; [apply length_filter|]. by rewrite length_fmap.
Qed.

Lemma filter_unseen_le (names seen : list string) (name : string) :
  length (filter (λ n, n ∉ seen ++ [name]) names)
  ≤ length (filter (λ n, n ∉ seen) names).
Proof.
  induction names as [|x names IH]; [done|]. rewrite !filter_cons.
  destruct (decide (x ∉ seen ++ [name])) as [Hx|Hx];
    destruct (decide (x ∉ seen)) as [Hy|Hy]; simpl; try lia.
  exfalso. apply Hy. intros Hin. apply Hx, elem_of_app. by left.
Qed.

Lemma filter_unseen_lt (names seen : list string) (name : string) :
  name ∈ names → name ∉ seen →
  length (filter (λ n, n ∉ seen ++ [name]) names)
  < length (filter (λ n, n ∉ seen) names).
Proof.
  intros Hin Hnew. induction names as [|x names IH].
  - by apply elem_of_nil in Hin.
  - rewrite !filter_cons.
    pose proof (filter_unseen_le names seen name) as Hle.
    destruct (decide (x = name)) as [->|Hne].
    + rewrite decide_False, decide_True by
        (try done; intros Hno; apply Hno, elem_of_app; right; by left).
      simpl. lia.
    + apply elem_of_cons in Hin as [->|Hin]; [done|].
      specialize (IH Hin).
      destruct (decide (x ∉ seen ++ [name])) as [Hx|Hx];
        destruct (decide (x ∉ seen)) as [Hy|Hy]; simpl; try lia.
      exfalso. apply Hy. intros Hseen. apply Hx, elem_of_app. by left.
Qed.

Lemma pending_decreases (roster : list (string * string))
    (seen : list string) (name : string) :
  name ∈ roster.*1 → name ∉ seen →
  pending roster (seen ++ [name]) < pending roster seen.
Proof. apply filter_unseen_lt. Qed.

Lemma run_from_hub_terminates
    (llm : nat → list Message → option Message)
    (roster : list (string * string)) (n : nat) :
  ∀ st au w fuel history,
    messages st = Some history →
    pending roster (default [] (visited st)) ≤ n →
    2 * n + 2 ≤ fuel →
    match run llm roster fuel (mkConfig HubNode st au) w with
    | Finished _ _ => True
    | Aborted e _ _ => e = GenerationFailure
    | RecursionLimit _ _ => False
    end.
Proof.
  induction n as [|n IH]; intros st au w fuel history Hm Hpending Hfuel.
  all: destruct fuel as [|[|fuel]]; [lia..|]; rewrite run_hub.
  all: destruct (first_pending roster.*1 (default [] (visited st)))
         as [name|] eqn:Hscan.
  all: try (rewrite (step_hub_done llm roster st au w history Hscan Hm);
            destruct (llm _ _); [by rewrite run_end|done]).
  all: rewrite (step_hub_pending llm roster st au w name Hscan).
  all: apply first_pending_elem in Hscan as [Hin Hnew].
  all: pose proof (pending_decreases roster _ name Hin Hnew) as Hless.
  - lia.
  - destruct (decide (name = END)); [by rewrite run_end|].
    destruct (prompt_of_elem name roster Hin) as [p ->].
    rewrite run_spoke.
    rewrite (step_spoke_any llm roster name p _ au _ history)
      by (simpl; by rewrite Hm).
    destruct (llm _ _) as [response|]; [|done].
    apply (IH _ _ _ _ (history ++ [response])); [done|simpl; lia|lia].
Qed.

(** X6. A run on an input that carries a transcript, whatever its route and
    its [visited], always stops by itself, for any roster of [N] spokes and
    any model: under a step bound of at least [2 N + 2] it ends, or it
    aborts because a call to the model failed. It raises no [KeyError] and
    never runs into the step bound. *)
Theorem run_terminates
    (llm : nat → list Message → option Message)
    (roster : list (string * string)) (fuel : nat)
    (history : list Message) (route : option string)
    (seen : option (list string)) :
  2 * length roster + 2 ≤ fuel →
  match invoke llm roster fuel
          {| messages := Some history; next := route; visited := seen |}
  with
  | Finished _ _ => True
  | Aborted e _ _ => e = GenerationFailure
  | RecursionLimit _ _ => False
  end.
Proof.
  intros Hfuel. unfold invoke.
  apply (run_from_hub_terminates llm roster (length roster) _ _ _ _ history).
  - done.
  - apply pending_le.
  - done.
Qed.

Lemma run_terminates_witness :
  match invoke (failing_llm 1) SPECIALISTS default_recursion_limit
          {| messages := Some []; next := None;
             visited := Some ["writer"; "writer"; "unknown"] |}
  with
  | Finished _ _ => True
  | Aborted e _ _ => e = GenerationFailure
  | RecursionLimit _ _ => False
  end.
Proof.
  apply (run_terminates (failing_llm 1) SPECIALISTS default_recursion_limit
           [] None (Some ["writer"; "writer"; "unknown"])).
  vm_compute. lia.
Defined.

(** ** What every request holds *)

Lemma spoke_requests_length (todo : list (string * string)) :
  ∀ history replies,
    length replies = length todo →
    length (spoke_requests todo history replies) = length todo.
Proof.
  induction todo as [|[n p] todo IH]; intros history [|r replies] Hlen;
    simpl in *; try done.
  rewrite IH; [done|lia].
Qed.

Lemma spoke_requests_lookup (todo : list (string * string)) :
  ∀ history replies i n p,
    length replies = length todo →
    todo !! i = Some (n, p) →
    spoke_requests todo history replies !! i
    = Some (mkMessage system p :: history ++ take i replies).
Proof.
  induction todo as [|[n' p'] todo IH];
    intros history [|r replies] [|i] n p Hlen Hi; simpl in *; try done.
  - injection Hi as <- <-. by rewrite app_nil_r.
  - rewrite (IH _ _ _ n p) by (done || lia). by rewrite <- app_assoc.
Qed.

Section Requests.

Variable llm : nat → list Message → option Message.
Variable roster : list (string * string).
Hypothesis Hok : roster_ok roster.

Lemma pass_requests (todo : list (string * string)) :
  ∀ done history route au w fuel c' w',
    roster = done ++ todo →
    run llm roster fuel (at_hub history route done.*1 au) w
      = Finished c' w' →
    ∃ replies synthesis,
      length replies = length todo ∧
      messages (state c') = Some (history ++ replies ++ [synthesis]) ∧
      requests w' =
        requests w ++ spoke_requests todo history replies ++
        [orchestrator_prompt :: history ++ replies] ∧
      (∀ i request,
          spoke_requests todo history replies !! i = Some request →
          llm (calls w + i) request = replies !! i) ∧
      llm (calls w + length todo) (orchestrator_prompt :: history ++ replies)
        = Some synthesis.
Proof.
  induction todo as [|[n p] todo IH];
    intros done history route au w fuel c' w' Hsplit.
  - destruct fuel as [|fuel]; [done|].
    rewrite app_nil_r in Hsplit. subst done.
    unfold at_hub. rewrite run_hub.
    fold (at_hub history route roster.*1 au).
    rewrite step_hub_finalizes.
    destruct (llm (calls w) _) as [synthesis|] eqn:Hllm; [|done].
    destruct fuel as [|fuel]; [done|].
    rewrite run_end. intros [= <- <-]. exists [], synthesis. simpl.
    rewrite !app_nil_r, Nat.add_0_r, requests_app. split_and!; try done.
  - destruct fuel as [|[|fuel]].
    + done.
    + unfold at_hub. rewrite run_hub.
      fold (at_hub history route done.*1 au).
      by rewrite (step_hub_routes llm roster done todo n p).
    + unfold at_hub. rewrite run_hub.
      fold (at_hub history route done.*1 au).
      rewrite (step_hub_routes llm roster done todo n p) by done.
      rewrite run_spoke, step_spoke, calls_print by done.
      destruct (llm (calls w) _) as [reply|] eqn:Hllm; [|done].
      intros Hrun.
      specialize (IH (done ++ [(n, p)]) (history ++ [reply]) (Some n)
                    (au ++ [BySpoke n])
                    ((w ++ [Routing n]) ++
                     [Working n; Invoke (mkMessage system p :: history)])
                    fuel c' w').
      rewrite fmap_app in IH. simpl in IH.
      destruct IH as (replies & synthesis & Hlen & Hm & Hreq & Hans & Hsyn);
        [by rewrite <- app_assoc|done|].
      assert (calls ((w ++ [Routing n]) ++
                [Working n; Invoke (mkMessage system p :: history)])
              = S (calls w)) as Hcalls.
      { rewrite <- app_assoc. simpl.
        rewrite (calls_app w). unfold calls, requests. simpl. lia. }
      rewrite Hcalls in Hans, Hsyn.
      exists (reply :: replies), synthesis. simpl. split_and!.
      * by rewrite Hlen.
      * by rewrite Hm, <- !app_assoc.
      * rewrite Hreq, !requests_app. simpl.
        by rewrite app_nil_r, <- !app_assoc.
      * intros [|i] request; simpl.
        -- intros [= <-]. by rewrite Nat.add_0_r.
        -- intros Hi. rewrite <- (Hans i request Hi). f_equal. lia.
      * rewrite <- app_assoc in Hsyn. simpl in Hsyn. rewrite <- Hsyn.
        f_equal. lia.
Qed.

End Requests.

(** X7. In a run that ends, every request holds all that came before it.
    The spoke number [i] of the roster sent its own system prompt, then the
    task, then the replies of the spokes before it, in order; its reply is
    the model's answer to that request. The synthesis request is the
    orchestrator prompt followed by the task and all [N] replies. These
    [N + 1] requests are all the model received. *)
Theorem requests_accumulate
    (llm : nat → list Message → option Message)
    (roster : list (string * string)) (task : string) (fuel : nat)
    (c : Config) (w : World) :
  roster_ok roster →
  invoke llm roster fuel (initial_state task) = Finished c w →
  ∃ replies synthesis,
    length replies = length roster ∧
    messages (state c)
      = Some (mkMessage human task :: replies ++ [synthesis]) ∧
    length (requests w) = length roster + 1 ∧
    (∀ i name system_prompt,
        roster !! i = Some (name, system_prompt) →
        let request := mkMessage system system_prompt
                       :: mkMessage human task :: take i replies in
        requests w !! i = Some request ∧
        llm i request = replies !! i) ∧
    requests w !! length roster
      = Some (orchestrator_prompt :: mkMessage human task :: replies) ∧
    llm (length roster)
        (orchestrator_prompt :: mkMessage human task :: replies)
      = Some synthesis.
Proof.
  intros Hok Hrun.
  destruct (pass_requests llm roster Hok roster [] [mkMessage human task]
              (Some "") [ByInput] [] fuel c w eq_refl Hrun)
    as (replies & synthesis & Hlen & Hm & Hreq & Hans & Hsyn).
  simpl in *. exists replies, synthesis.
  pose proof (spoke_requests_length roster [mkMessage human task] replies
                Hlen) as Hlength.
  split_and!; try done.
  - rewrite Hreq, length_app, Hlength. simpl. lia.
  - intros i name system_prompt Hi.
    pose proof (spoke_requests_lookup roster [mkMessage human task] replies
                  i name system_prompt Hlen Hi) as Hlookup.
    split.
    + rewrite Hreq, lookup_app_l; [done|].
      rewrite Hlength. by apply lookup_lt_Some in Hi.
    + by apply Hans.
  - rewrite Hreq, lookup_app_r by lia. by rewrite Hlength, Nat.sub_diag.
Qed.

Lemma requests_accumulate_witness :
  ∃ replies synthesis,
    length replies = 4 ∧
    echo_llm 2
      (mkMessage system
         ("You are a critical thinker. " +:+
          "Identify weaknesses, counterarguments, risks, or missing " +:+
          "perspectives in the discussion so far.")
       :: mkMessage human "Explain X." :: take 2 replies)
    = replies !! 2 ∧
    echo_llm 4 (orchestrator_prompt :: mkMessage human "Explain X." :: replies)
    = Some synthesis.
Proof.
  assert (roster_ok SPECIALISTS) as Hok by by_evaluation.
  destruct (answers_finish echo_llm SPECIALISTS Hok "Explain X."
              default_recursion_limit) as (c & w & Hrun).
  - vm_compute. lia.
  - intros i request _. by eexists.
  - destruct (requests_accumulate echo_llm SPECIALISTS "Explain X."
                default_recursion_limit c w Hok Hrun)
      as (replies & synthesis & Hlen & _ & _ & Hspokes & _ & Hsyn).
    exists replies, synthesis. split_and!.
    + exact Hlen.
    + exact (proj2 (Hspokes 2 "critic" _ eq_refl)).
    + exact Hsyn.
Defined.

(** ** Spokes on any input *)

Lemma worker_of_app (w1 w2 : World) :
  omap worker_of (w1 ++ w2) = omap worker_of w1 ++ omap worker_of w2.
Proof. apply omap_app. Qed.

Lemma ran_once_step (llm : nat → list Message → option Message)
    (roster : list (string * string)) (input : AgentState)
    (c : Config) (w : World) (c' : Config) (w' : World) :
  ran_once roster input c w →
  step llm roster c w = Ok c' w' →
  ran_once roster input c' w'.
Proof.
  destruct c as [[|n p|] st au];
    intros (added & Hv & Hw & Hdup & Hin & Hnode); simpl in *.
  - destruct (first_pending roster.*1 (default [] (visited st)))
      as [name|] eqn:Hscan.
    + rewrite (step_hub_pending llm roster st au w name Hscan).
      apply first_pending_elem in Hscan as [Hname Hnew].
      assert (ran_once roster input
                (mkConfig EndNode (apply_update st (route_to name)) au)
                (w ++ [Routing name])) as Hend.
      { exists added. simpl. rewrite worker_of_app, Hw. simpl.
        rewrite app_nil_r. split_and!; done. }
      destruct (decide (name = END)); [by intros [= <- <-]|].
      destruct (prompt_of name roster) as [p|]; [|done].
      intros [= <- <-]. exists added. simpl.
      rewrite worker_of_app, Hw. simpl. rewrite app_nil_r.
      split_and!; try done. by intros n' p' [= <- _].
    + destruct (messages st) as [history|] eqn:Hm.
      * rewrite (step_hub_done llm roster st au w history Hscan Hm).
        destruct (llm _ _); [|done]. intros [= <- <-].
        exists added. simpl. rewrite worker_of_app, Hw. simpl.
        rewrite app_nil_r. split_and!; done.
      * by rewrite (step_hub_no_messages llm roster st au w Hscan Hm).
  - destruct (Hnode n p eq_refl) as [Hname Hnew].
    destruct (messages st) as [history|] eqn:Hm.
    + rewrite (step_spoke_any llm roster n p st au w history Hm).
      destruct (llm _ _); [|done]. intros [= <- <-].
      rewrite Hv in Hnew. apply not_elem_of_app in Hnew as [Hnew0 Hnew1].
      exists (added ++ [n]). simpl.
      rewrite worker_of_app, Hw, Hv, <- app_assoc. simpl.
      split_and!; try done.
      * apply NoDup_app. split_and!; [done| |apply NoDup_singleton].
        by intros x Hx ->%list_elem_of_singleton.
      * intros x [Hx| ->%list_elem_of_singleton]%elem_of_app; auto.
    + by rewrite (step_spoke_no_messages llm roster n p st au w Hm).
  - intros [= <- <-]. by exists added.
Qed.

(** X8. Whatever the input, along a run [visited] is the list the input
    brought followed by the spokes that have run, in the order they ran.
    Each of them is a name of the roster that the input had not visited,
    and none has run twice: names the caller marks visited are skipped. *)
Theorem spokes_run_once_from_any_input
    (llm : nat → list Message → option Message)
    (roster : list (string * string)) (input : AgentState)
    (c : Config) (w : World) :
  reachable_from llm roster input c w →
  ∃ added,
    default [] (visited (state c)) = default [] (visited input) ++ added ∧
    omap worker_of w = added ∧
    NoDup added ∧
    (∀ n, n ∈ added → n ∈ roster.*1 ∧ n ∉ default [] (visited input)).
Proof.
  intros Hreach.
  assert (ran_once roster input c w) as (added & Hv & Hw & Hdup & Hin & _).
  { induction Hreach as [|c w c' w' _ IH _ Hstep].
    - exists []. simpl. rewrite app_nil_r.
      split_and!; [done|done|constructor| |done].
      by intros n ?%elem_of_nil.
    - by apply (ran_once_step llm roster input c w c' w'). }
  by exists added.
Qed.

Lemma spokes_run_once_from_any_input_witness :
  ∃ added,
    ["critic"; "analyst"; "researcher"] = ["critic"; "analyst"] ++ added ∧
    omap worker_of
      [Routing "researcher"; Working "researcher";
       Invoke [mkMessage system
                 ("You are a knowledgeable researcher. " +:+
                  "Provide relevant facts, data, and background " +:+
                  "on the topic.")]]
    = added.
Proof.
  destruct (spokes_run_once_from_any_input echo_llm SPECIALISTS
              {| messages := Some []; next := None;
                 visited := Some ["critic"; "analyst"] |}
              (mkConfig HubNode
                 {| messages := Some [mkMessage ai "reply 0"];
                    next := Some "researcher";
                    visited := Some ["critic"; "analyst"; "researcher"] |}
                 [BySpoke "researcher"])
              [Routing "researcher"; Working "researcher";
               Invoke [mkMessage system
                         ("You are a knowledgeable researcher. " +:+
                          "Provide relevant facts, data, and background " +:+
                          "on the topic.")]])
    as (added & Hv & Hw & _).
  - eapply reachable_from_step.
    + eapply reachable_from_step.
      * apply reachable_from_start.
      * discriminate.
      * reflexivity.
    + discriminate.
    + reflexivity.
  - exists added. split; [exact Hv|exact Hw].
Defined.

(** ** Instances of the node properties *)

Lemma hub_reads_visited_as_set_witness :
  hub echo_llm SPECIALISTS
    (seen_state ["analyst"; "unknown"; "researcher"; "analyst"]) []
  = hub echo_llm SPECIALISTS (seen_state ["researcher"; "analyst"]) [].
Proof.
  apply (hub_reads_visited_as_set echo_llm SPECIALISTS
           (seen_state ["analyst"; "unknown"; "researcher"; "analyst"])
           (seen_state ["researcher"; "analyst"]) []).
  - reflexivity.
  - intros n Hn. simpl.
    repeat (apply elem_of_cons in Hn as [->|Hn]);
      [by_evaluation..|by apply elem_of_nil in Hn].
Defined.

Lemma step_failures_witness :
  (KeyError "messages" = KeyError "messages" ∧
   messages {| messages := None; next := None; visited := None |} = None ∧
   requests [Routing "researcher"; Working "researcher"]
   = requests [Routing "researcher"]) ∨
  (KeyError "messages" = GenerationFailure ∧
   ∃ history request,
     messages {| messages := None; next := None; visited := None |}
       = Some history ∧
     echo_llm (calls [Routing "researcher"]) request = None ∧
     requests [Routing "researcher"; Working "researcher"]
     = requests [Routing "researcher"] ++ [request]).
Proof.
  apply (step_failures echo_llm SPECIALISTS
           (mkConfig (SpokeNode "researcher" "Be thorough.")
              {| messages := None; next := None; visited := None |} [])
           [Routing "researcher"] (KeyError "messages")
           [Routing "researcher"; Working "researcher"]).
  reflexivity.
Defined.

Lemma step_appends_only_witness :
  ∃ new added events,
    [mkMessage human "Explain X."; mkMessage ai "reply 0"]
      = [mkMessage human "Explain X."] ++ new ∧
    ["researcher"; "critic"] = ["researcher"] ++ added ∧
    [Working "critic";
     Invoke [mkMessage system "Be critical."; mkMessage human "Explain X."]]
      = [] ++ events.
Proof.
  destruct (step_appends_only echo_llm SPECIALISTS
              (mkConfig (SpokeNode "critic" "Be critical.")
                 (seen_state ["researcher"]) [ByInput])
              [] _ _ eq_refl)
    as (new & added & events & Hm & Hv & Hw & _).
  exists new, added, events. split_and!; [exact Hm|exact Hv|exact Hw].
Defined.
